(** * tun2socks: the DNS hijack table and the TCP tunnel

    A shallow embedding of the two source files of the relay core:

    - [Module DNS]: the hijack table ([DomainRecord], [DNSTable]) with its
      reaper sweep and hot reload;
    - [Module Tunnel]: the per-connection TCP tunnel of [tcp2socks.go]
      ([Run], the two pumps, [Close]).

    Go maps are stdpp [gmap]s, the mutex-protected methods are state
    transformers on the table, [time.Now()] is an explicit argument, and
    everything written to the logger is returned as a list of log lines. *)

From Stdlib Require Import ZArith Lia Bool Strings.Byte.
From stdpp Require Import gmap strings list fin_maps pretty.

Open Scope Z_scope.

Module DNS.

(** ** Data model *)

(** [net.IP] is a byte slice; [None] is the nil slice. *)
Definition net_IP : Type := option (list byte).

#[export] Instance byte_eq_dec : EqDecision byte := Byte.byte_eq_dec.
#[export] Instance net_IP_eq_dec : EqDecision net_IP :=
  option_eq_dec (A := list byte).

(** [time.Time] as a number of nanoseconds; [time.Second] in that unit. *)
Definition Time : Type := Z.
Definition Second : Z := 1000000000.
Definition Before (t u : Time) : bool := t <? u.

(** Go's [int] (64 bits), with its wrap-around. *)
Definition int_wrap (z : Z) : Z := (z + 2 ^ 63) mod 2 ^ 64 - 2 ^ 63.

(** The part of miekg/dns the table uses: resource records are an interface,
    of which only [*dns.A] is told apart by the code. *)
Record RR_Header := mkHeader {
  Name : string; Rrtype : Z; Class : Z; Ttl : Z }.

Record dns_A := mkA { Hdr : RR_Header; A : net_IP }.

Inductive RR :=
| RR_A (answer : dns_A)
| RR_other (hdr : RR_Header).

Record dns_Msg := mkMsg { Answer : list RR }.

Definition TypeA : Z := 1.
Definition ClassINET : Z := 1.

(** What the package takes from outside this file: [net.IP.String] and
    [net.IP.To4] of the Go library, [dns.Fqdn], and the constant
    [configure.DNSDefaultTTL]. *)
Class Externals := {
  IP_String : net_IP → string;
  To4 : net_IP → net_IP;
  Fqdn : string → string;
  DNSDefaultTTL : Z }.

Record DomainRecord := mkRecord {
  Hostname : string;
  Proxy : string;
  IP : net_IP;
  RealIP : net_IP;
  Hits : Z;
  Expires : Time;
  answer : option dns_A }.

(** What the package prints with [log.Printf] and [log.Println]. *)
Inductive LogLine :=
| LogIPSpaceUsedUp (domain : string)
| LogHijack (domain ip : string)
| LogRelease (domain ip : string) (hits : Z)
| LogReleaseNonProxy (domain : string)
| LogReloaded.

(** The table, over the type [P] of its address pool. *)
Record DNSTable (P : Type) := mkTable {
  ipPool : P;
  records : gmap string DomainRecord;
  ip2Domain : gmap string string;
  nonProxyDomains : gmap string Time }.
Arguments mkTable {P}.
Arguments ipPool {P}.
Arguments records {P}.
Arguments ip2Domain {P}.
Arguments nonProxyDomains {P}.

(** ** DomainRecord *)

(** The loop of [SetRealIP]: the [break] of the [case *dns.A] arm leaves the
    [switch], not the [for], so every answer is visited and each A record
    overwrites [ip]. *)
Definition scanAnswers (answers : list RR) : net_IP :=
  fold_left (λ ip item, match item with
                        | RR_A answer => A answer
                        | RR_other _ => ip
                        end) answers None.

Definition SetRealIP (msg : dns_Msg) (record : DomainRecord) : DomainRecord :=
  match RealIP record with
  | Some _ => record
  | None =>
      mkRecord (Hostname record) (Proxy record) (IP record)
               (scanAnswers (Answer msg))
               (Hits record) (Expires record) (answer record)
  end.

Section WithExternals.
Context `{Externals}.

Definition Touch (now : Time) (record : DomainRecord) : DomainRecord :=
  mkRecord (Hostname record) (Proxy record) (IP record) (RealIP record)
           (int_wrap (Hits record + 1))
           (now + DNSDefaultTTL * Second)
           (answer record).

Definition ForgeIPv4Answer (domain : string) (ip : net_IP) : dns_A :=
  mkA (mkHeader (Fqdn domain) TypeA ClassINET DNSDefaultTTL) (To4 ip).

(** ** The address pool

    [DNSIPPool] is declared in another file of the package.  The table only
    calls [Alloc], [Release], [Capacity] and [Contains]; [Alloc] and
    [Release] mutate the pool, so they return the new pool.

    Modelled from the spec: the pool's bookkeeping guarantees that no address
    is handed out twice while outstanding.  [outstanding] is the set of
    addresses handed out and not yet released, addresses being told apart by
    their [String()] form, as the table's reverse index does. *)
Class DNSIPPool (P : Type) := {
  Alloc : string → P → net_IP * P;
  Release : net_IP → P → P;
  Capacity : P → Z;
  Contains : net_IP → P → bool;
  outstanding : P → gset string;
  Alloc_outstanding : ∀ domain p ip p',
    Alloc domain p = (ip, p') → ip ≠ None →
    (IP_String ip ∉ outstanding p) ∧
    (outstanding p' = {[IP_String ip]} ∪ outstanding p);
  Alloc_nil_outstanding : ∀ domain p p',
    Alloc domain p = (None, p') → outstanding p' = outstanding p;
  Release_outstanding : ∀ ip p,
    outstanding (Release ip p) = outstanding p ∖ {[IP_String ip]} }.

(** ** DNSTable *)

Section WithPool.
Context {P : Type} `{DNSIPPool P}.

Definition NewDnsTable (pool : P) : DNSTable P :=
  mkTable pool ∅ ∅ ∅.

(** [get]: the record is shared with the map, so [Touch] updates the map. *)
Definition get (domain : string) (now : Time) (c : DNSTable P)
  : option DomainRecord * DNSTable P :=
  match records c !! domain with
  | Some record =>
      let record' := Touch now record in
      (Some record',
       mkTable (ipPool c) (<[domain := record']> (records c))
               (ip2Domain c) (nonProxyDomains c))
  | None => (None, c)
  end.

Definition GetByIP (ip : net_IP) (now : Time) (c : DNSTable P)
  : option DomainRecord * DNSTable P :=
  match ip2Domain c !! IP_String ip with
  | Some domain => get domain now c
  | None => (None, c)
  end.

Definition DNSTable_Contains (ip : net_IP) (c : DNSTable P) : bool :=
  Contains ip (ipPool c).

Definition Get (domain : string) (now : Time) (c : DNSTable P)
  : option DomainRecord * DNSTable P :=
  get domain now c.

Definition Set_ (domain proxy : string) (now : Time) (c : DNSTable P)
  : option DomainRecord * DNSTable P * list LogLine :=
  match records c !! domain with
  | Some record => (Some record, c, [])
  | None =>
      let '(ip, pool) := Alloc domain (ipPool c) in
      match ip with
      | None =>
          (None,
           mkTable pool (records c) (ip2Domain c) (nonProxyDomains c),
           [LogIPSpaceUsedUp domain])
      | Some _ =>
          let record :=
            Touch now (mkRecord domain proxy ip None 0 0
                                (Some (ForgeIPv4Answer domain ip))) in
          (Some record,
           mkTable pool (<[domain := record]> (records c))
                   (<[IP_String ip := domain]> (ip2Domain c))
                   (nonProxyDomains c),
           [LogHijack domain (IP_String ip)])
      end
  end.

Definition IsNonProxyDomain (domain : string) (c : DNSTable P) : bool :=
  bool_decide (is_Some (nonProxyDomains c !! domain)).

(** [ttl] is a [uint32] number of seconds. *)
Definition SetNonProxyDomain (domain : string) (ttl : Z) (now : Time)
    (c : DNSTable P) : DNSTable P :=
  mkTable (ipPool c) (records c) (ip2Domain c)
          (<[domain := now + ttl * Second]> (nonProxyDomains c)).

Definition deleteNonProxy (domain : string) (c : DNSTable P) : DNSTable P :=
  mkTable (ipPool c) (records c) (ip2Domain c)
          (delete domain (nonProxyDomains c)).

Definition clearExpiredNonProxyDomain (now : Time) (c : DNSTable P)
  : DNSTable P * list LogLine :=
  map_fold (λ domain expired (acc : DNSTable P * list LogLine),
      if Before expired now
      then (deleteNonProxy domain acc.1,
            acc.2 ++ [LogReleaseNonProxy domain])
      else acc)
    (c, []) (nonProxyDomains c).

(** One pass of the body of a [range c.records] loop that deletes the entry
    it is visiting: both map entries go, the address returns to the pool. *)
Definition releaseRecord (domain : string) (record : DomainRecord)
    (c : DNSTable P) : DNSTable P :=
  mkTable (Release (IP record) (ipPool c))
          (delete domain (records c))
          (delete (IP_String (IP record)) (ip2Domain c))
          (nonProxyDomains c).

Definition threshold (c : DNSTable P) : Z :=
  if 1000 >? Capacity (ipPool c) ÷ 10
  then Capacity (ipPool c) ÷ 10
  else 1000.

(** The [range] loops visit every entry of the map as it was when the loop
    started (only the visited entry is deleted), in an order Go leaves
    open; [map_fold] fixes one. *)
Definition sweepRecord (now : Time) (domain : string) (record : DomainRecord)
    (acc : DNSTable P * list LogLine) : DNSTable P * list LogLine :=
  if negb (Before (Expires record) now)
  then acc
  else (releaseRecord domain record acc.1,
        acc.2 ++ [LogRelease domain (IP_String (IP record)) (Hits record)]).

Definition clearExpiredDomain (now : Time) (c : DNSTable P)
  : DNSTable P * list LogLine :=
  if Z.of_nat (size (records c)) <=? threshold c
  then (c, [])
  else map_fold (sweepRecord now) (c, []) (records c).

(** [Serve]: one tick of the reaper. *)
Definition tick (now : Time) (c : DNSTable P) : DNSTable P * list LogLine :=
  let '(c1, l1) := clearExpiredDomain now c in
  let '(c2, l2) := clearExpiredNonProxyDomain now c1 in
  (c2, l1 ++ l2).

(** [Reload] ignores both of its arguments. *)
Definition Reload (ip : net_IP) (subnet : net_IP * net_IP) (c : DNSTable P)
  : DNSTable P * list LogLine :=
  let c1 := map_fold (λ domain (_ : Time), deleteNonProxy domain)
                      c (nonProxyDomains c) in
  (map_fold releaseRecord c1 (records c1), [LogReloaded]).

(** ** The invariant of the table

    A record is filed under its own hostname; the reverse index and the
    records determine each other; the address of a live record is
    outstanding in the pool. *)
Record Inv (c : DNSTable P) : Prop := mkInv {
  inv_hostname : ∀ d r, records c !! d = Some r → Hostname r = d;
  inv_reverse : ∀ d r,
    records c !! d = Some r → ip2Domain c !! IP_String (IP r) = Some d;
  inv_forward : ∀ k d,
    ip2Domain c !! k = Some d →
    ∃ r, records c !! d = Some r ∧ IP_String (IP r) = k;
  inv_pool : ∀ d r,
    records c !! d = Some r → IP_String (IP r) ∈ outstanding (ipPool c) }.

(** The bijection as the specification words it. *)
Definition Bijective (c : DNSTable P) : Prop :=
  (∀ d r, records c !! d = Some r →
          ip2Domain c !! IP_String (IP r) = Some (Hostname r)) ∧
  (∀ d1 d2 r1 r2,
      records c !! d1 = Some r1 → records c !! d2 = Some r2 →
      IP_String (IP r1) = IP_String (IP r2) → d1 = d2).

(** A caller that holds a record returned by [Get], [GetByIP] or [Set]
    holds the pointer stored in the map: [SetRealIP] on it updates the map. *)
Definition updateRecord (domain : string) (record : DomainRecord)
    (c : DNSTable P) : DNSTable P :=
  mkTable (ipPool c) (<[domain := record]> (records c))
          (ip2Domain c) (nonProxyDomains c).

(** The tables a program can build with the methods of the package. *)
Inductive reachable : DNSTable P → Prop :=
| reach_New pool : reachable (NewDnsTable pool)
| reach_Set domain proxy now c :
    reachable c → reachable (Set_ domain proxy now c).1.2
| reach_Get domain now c :
    reachable c → reachable (Get domain now c).2
| reach_GetByIP ip now c :
    reachable c → reachable (GetByIP ip now c).2
| reach_SetRealIP domain record msg c :
    reachable c → records c !! domain = Some record →
    reachable (updateRecord domain (SetRealIP msg record) c)
| reach_SetNonProxyDomain domain ttl now c :
    reachable c → reachable (SetNonProxyDomain domain ttl now c)
| reach_clearExpiredDomain now c :
    reachable c → reachable (clearExpiredDomain now c).1
| reach_clearExpiredNonProxyDomain now c :
    reachable c → reachable (clearExpiredNonProxyDomain now c).1
| reach_Reload ip subnet c :
    reachable c → reachable (Reload ip subnet c).1.

(** The pool and the table agree on what is handed out: the outstanding
    addresses are the addresses of the live records. *)
Definition NoLeak (c : DNSTable P) : Prop :=
  ∀ k, k ∈ outstanding (ipPool c) ↔
       ∃ d r, records c !! d = Some r ∧ IP_String (IP r) = k.

End WithPool.
End WithExternals.

(** ** A pool to run the table on

    Modelled from the spec: the SyntheticAddressPool, whose file is not part
    of the sources at hand.  It owns the usable addresses of the subnet and
    remembers which are handed out; [Alloc] returns a free one or nil,
    [Release] frees one, [Capacity] counts the usable addresses. *)
Record ListPool := mkPool {
  usable : list net_IP;
  taken : gset string }.

Section ListPool.
Context `{Externals}.

Definition isFree (p : ListPool) (ip : net_IP) : bool :=
  bool_decide (ip ≠ None) && bool_decide (IP_String ip ∉ taken p).

Definition ListPool_Alloc (domain : string) (p : ListPool)
  : net_IP * ListPool :=
  match find (isFree p) (usable p) with
  | Some ip => (ip, mkPool (usable p) ({[IP_String ip]} ∪ taken p))
  | None => (None, p)
  end.

Definition ListPool_Release (ip : net_IP) (p : ListPool) : ListPool :=
  mkPool (usable p) (taken p ∖ {[IP_String ip]}).

Definition ListPool_Capacity (p : ListPool) : Z :=
  Z.of_nat (length (usable p)).

Definition ListPool_Contains (ip : net_IP) (p : ListPool) : bool :=
  bool_decide (ip ∈ usable p).

End ListPool.

Lemma ListPool_Alloc_outstanding `{Externals} domain p ip p' :
  ListPool_Alloc domain p = (ip, p') → ip ≠ None →
  (IP_String ip ∉ taken p) ∧ (taken p' = {[IP_String ip]} ∪ taken p).
Proof.
  unfold ListPool_Alloc.
  destruct (find (isFree p) (usable p)) as [ip0|] eqn:Hfind.
  - intros [= <- <-] _. apply find_some in Hfind as [_ Hfree].
    apply andb_prop in Hfree as [_ Hfree].
    by apply bool_decide_eq_true in Hfree.
  - by intros [= <- <-].
Qed.

Lemma ListPool_Alloc_nil `{Externals} domain p p' :
  ListPool_Alloc domain p = (None, p') → taken p' = taken p.
Proof.
  unfold ListPool_Alloc.
  destruct (find (isFree p) (usable p)) as [ip0|] eqn:Hfind.
  - intros [= -> <-]. apply find_some in Hfind as [_ Hfree].
    apply andb_prop in Hfree as [Hfree _].
    by apply bool_decide_eq_true in Hfree.
  - by intros [= <-].
Qed.

#[export] Instance ListPool_DNSIPPool `{Externals} : DNSIPPool ListPool := {|
  Alloc := ListPool_Alloc;
  Release := ListPool_Release;
  Capacity := ListPool_Capacity;
  Contains := ListPool_Contains;
  outstanding := taken;
  Alloc_outstanding := ListPool_Alloc_outstanding;
  Alloc_nil_outstanding := ListPool_Alloc_nil;
  Release_outstanding := λ _ _, eq_refl |}.

(** Stand-ins for the library functions, to run examples: dotted decimal for
    4-byte addresses, a trailing dot for [Fqdn], a TTL of 60 seconds. *)
Definition dotted (ip : net_IP) : string :=
  match ip with
  | Some [a; b; c; d] =>
      pretty (Byte.to_N a) +:+ "." +:+ pretty (Byte.to_N b) +:+ "." +:+
      pretty (Byte.to_N c) +:+ "." +:+ pretty (Byte.to_N d)
  | Some _ => "?"
  | None => "<nil>"
  end.

Definition to4 (ip : net_IP) : net_IP :=
  match ip with
  | Some [a; b; c; d] => ip
  | _ => None
  end.

Definition fqdn (domain : string) : string := domain +:+ ".".

Definition sampleExternals : Externals :=
  {| IP_String := dotted; To4 := to4; Fqdn := fqdn; DNSDefaultTTL := 60 |}.

(** The addresses 10.0.0.[lo] ... 10.0.0.[lo + n - 1]. *)
Definition hostByte (n : nat) : byte :=
  default x00 (Byte.of_N (N.of_nat n)).

Definition subnetHosts (lo n : nat) : list net_IP :=
  (λ i, Some [x0a; x00; x00; hostByte i]) <$> seq lo n.

Definition samplePool (n : nat) : ListPool := mkPool (subnetHosts 2 n) ∅.

(** A table that hijacked the domains [names] at time [now]. *)
Definition hijackAll (names : list string) (now : Time)
    (c : DNSTable ListPool) : DNSTable ListPool :=
  foldl (λ c name, (Set_ (H := sampleExternals) name "proxy" now c).1.2)
        c names.

Definition sampleNames (n : nat) : list string :=
  (λ i, "host" +:+ pretty (N.of_nat i) +:+ ".example") <$> seq 0 n.

Definition sampleTable (capacity n : nat) : DNSTable ListPool :=
  hijackAll (sampleNames n) 0 (NewDnsTable (samplePool capacity)).

(** Sixty-one seconds after the sample tables were filled: every record of
    theirs has expired. *)
Definition afterTTL : Time := 61 * Second.

(** The threshold-gating property in the specification's words: with a pool
    of capacity 100, nine expired records are left alone and a table of ten
    expired records is emptied by the sweep. *)
Definition threshold_gating_as_stated : Prop :=
  ∀ (c : DNSTable ListPool) (now : Time),
    Capacity (H := sampleExternals) (ipPool c) = 100 →
    (∀ d r, records c !! d = Some r → Before (Expires r) now = true) →
    (size (records c) = 9%nat →
     clearExpiredDomain (H := sampleExternals) now c = (c, [])) ∧
    (size (records c) = 10%nat →
     records (clearExpiredDomain (H := sampleExternals) now c).1 = ∅).

(** Two A records, 1.1.1.1 and then 2.2.2.2, as received from a resolver. *)
Definition twoAnswers : dns_Msg :=
  mkMsg [RR_A (mkA (mkHeader "a.example." TypeA ClassINET 300)
                   (Some [x01; x01; x01; x01]));
         RR_A (mkA (mkHeader "a.example." TypeA ClassINET 300)
                   (Some [x02; x02; x02; x02]))].

Definition freshRecord : DomainRecord :=
  mkRecord "a.example" "proxy" (Some [x0a; x00; x00; x02]) None 1 60 None.

(** A pool of four addresses, all taken by the table. *)
Definition fullTable : DNSTable ListPool := sampleTable 4 4.

End DNS.

(** * The TCP tunnel of [tcp2socks.go] *)

Module Tunnel.
Import DNS.

(** ** Data model *)

(** Modelled from the spec: [TunnelStatus] and its constants are declared in
    another file of the package; a side is unset, proxying or closed, and
    the zero value of the struct field is the unset status. *)
Inductive TunnelStatus := StatusUnset | StatusProxying | StatusClosed.

#[export] Instance TunnelStatus_eq_dec : EqDecision TunnelStatus.
Proof. solve_decision. Defined.

(** A Go [error], by its text. *)
Definition error : Type := string.

(** [*tcpip.Error]: the three values the pumps compare with, and the rest. *)
Inductive tcpip_Error :=
| ErrWouldBlock
| ErrClosedForSend
| ErrClosedForReceive
| ErrOther (msg : string).

#[export] Instance tcpip_Error_eq_dec : EqDecision tcpip_Error.
Proof. solve_decision. Defined.

(** What the file takes from the [util] package and from the configuration:
    the classifiers of errors, the text of a [tcpip.Error], and
    [app.Cfg.TCP.Timeout]. *)
Class Util := {
  IsTimeout : error → bool;
  IsConnectionReset : error → bool;
  IsEOF : error → bool;
  IsBrokenPipe : error → bool;
  IsClosed : tcpip_Error → bool;
  tcpip_String : tcpip_Error → string;
  TCPTimeout : Z }.

(** What a tunnel does to its collaborators, in order: the deadlines it
    sets, what it writes, what it logs, what it closes.  [EvCallClose]
    marks an invocation of [Close], whatever the invocation then does. *)
Inductive Event :=
| EvEventRegister
| EvEventUnregister
| EvSetReadDeadline (seconds : option Z)
| EvRemoteWrite (v : list byte)
| EvLocalWrite (chunk : list byte)
| EvLogPrintln (msg : string)
| EvCallClose (reason : option error)
| EvLogClosed (reason : error)
| EvCtxCancel
| EvLocalEndpointClose
| EvRemoteConnClose.

#[export] Instance Event_eq_dec : EqDecision Event.
Proof. solve_decision. Defined.

(** The fields of [TCPTunnel] that change, the remote address, and the
    trace of events.  [ctx] is [None] until [Run] creates the context, then
    tells whether the context is cancelled; [closeOne] is the done flag of
    the [sync.Once]. *)
Record TCPTunnel := mkTunnel {
  localEndpointStatus : TunnelStatus;
  remoteStatus : TunnelStatus;
  remoteAddr : string;
  ctx : option bool;
  closeOne : bool;
  trace : list Event }.

(** A call returns, panics (a nil context or cancel function), or waits
    for input that the script of the run does not provide. *)
Inductive Outcome :=
| Returned (t : TCPTunnel)
| Panicked (t : TCPTunnel)
| Starved (t : TCPTunnel).

Definition emit (e : Event) (t : TCPTunnel) : TCPTunnel :=
  mkTunnel (localEndpointStatus t) (remoteStatus t) (remoteAddr t)
           (ctx t) (closeOne t) (trace t ++ [e]).

Definition SetRemoteStatus (s : TunnelStatus) (t : TCPTunnel) : TCPTunnel :=
  mkTunnel (localEndpointStatus t) s (remoteAddr t)
           (ctx t) (closeOne t) (trace t).

Definition RemoteStatus (t : TCPTunnel) : TunnelStatus := remoteStatus t.

Definition SetLocalEndpointStatus (s : TunnelStatus) (t : TCPTunnel)
  : TCPTunnel :=
  mkTunnel s (remoteStatus t) (remoteAddr t)
           (ctx t) (closeOne t) (trace t).

Definition LocalEndpointStatus (t : TCPTunnel) : TunnelStatus :=
  localEndpointStatus t.

Definition setCtx (c : option bool) (t : TCPTunnel) : TCPTunnel :=
  mkTunnel (localEndpointStatus t) (remoteStatus t) (remoteAddr t)
           c (closeOne t) (trace t).

Definition setCloseOne (t : TCPTunnel) : TCPTunnel :=
  mkTunnel (localEndpointStatus t) (remoteStatus t) (remoteAddr t)
           (ctx t) true (trace t).

(** ** Close

    [closeOne.Do] runs the body on the first invocation only.  The body
    logs a non-nil reason, closes both statuses, cancels the context and
    closes both ends.  [sync.Once] marks itself done also when the body
    panics, which it does on the nil cancel function of a tunnel that [Run]
    has not started. *)
Definition Close (reason : option error) (t : TCPTunnel) : Outcome :=
  let t := emit (EvCallClose reason) t in
  if closeOne t then Returned t
  else
    let t := match reason with
             | Some e => emit (EvLogClosed e) t
             | None => t
             end in
    let t := SetLocalEndpointStatus StatusClosed t in
    let t := SetRemoteStatus StatusClosed t in
    match ctx t with
    | None => Panicked (setCloseOne t)
    | Some _ =>
        Returned (setCloseOne
                    (emit EvRemoteConnClose
                       (emit EvLocalEndpointClose
                          (emit EvCtxCancel (setCtx (Some true) t)))))
    end.

(** [Close] invoked once for each reason of the list, in order, by callers
    that go on after a return; a panic ends the run. *)
Fixpoint CloseAll (reasons : list (option error)) (t : TCPTunnel) : Outcome :=
  match reasons with
  | [] => Returned t
  | reason :: reasons =>
      match Close reason t with
      | Returned t' => CloseAll reasons t'
      | o => o
      end
  end.

Definition occurrences (e : Event) (l : list Event) : nat :=
  length (filter (λ x, x = e) l).

Definition isLogClosed (e : Event) : bool :=
  match e with EvLogClosed _ => true | _ => false end.

Definition isLog (e : Event) : bool :=
  match e with EvLogClosed _ | EvLogPrintln _ => true | _ => false end.

Definition isLocalWrite (e : Event) : bool :=
  match e with EvLocalWrite _ => true | _ => false end.

Definition isCallClose (e : Event) : bool :=
  match e with EvCallClose _ => true | _ => false end.

(** ** The pumps

    What the two ends answer is a script: the results of the successive
    reads and writes.  A pump that needs a result the script does not have
    is [Starved]. *)
Record RemoteRead := mkRemoteRead {
  rdata : list byte;            (* buf[0:n] *)
  rerr : option error }.

Record LocalWrite := mkLocalWrite {
  wm : nat;                     (* bytes taken *)
  werr : option tcpip_Error }.

Record LocalRead := mkLocalRead {
  lv : list byte;
  lerr : option tcpip_Error;
  notified : bool }.            (* on would-block: does notifyCh fire *)

Record RemoteWrite := mkRemoteWrite {
  rn : nat;
  rwerr : option error }.

Inductive Flow (S : Type) :=
| Next (script : S) (t : TCPTunnel)   (* go on with the outer loop *)
| Stop (o : Outcome).                 (* break out of the outer loop *)
Arguments Next {S}.
Arguments Stop {S}.

Section WithUtil.
Context `{Util}.

(** The [writeAllPacket] loop of [readFromRemoteWriteToLocal]. *)
Fixpoint writeAllToLocal (writes : list LocalWrite) (chunk : list byte)
    (t : TCPTunnel) {struct writes} : Flow (list LocalWrite) :=
  if (length chunk <=? 0)%nat then Next writes t
  else
    match writes with
    | [] => Stop (Starved t)
    | w :: writes' =>
        let t := emit (EvLocalWrite chunk) t in
        let n := wm w in
        match werr w with
        | Some err =>
            if bool_decide (err = ErrWouldBlock) && (n <? length chunk)%nat
            then writeAllToLocal writes' (drop n chunk) t
            else if bool_decide (err = ErrClosedForSend)
                    || bool_decide (err = ErrClosedForReceive)
            then Stop (Returned t)
            else if IsClosed err
            then Stop (Close None t)
            else Stop (Close (Some (tcpip_String err))
                             (emit (EvLogPrintln (tcpip_String err)) t))
        | None =>
            if (n <? length chunk)%nat
            then writeAllToLocal writes' (drop n chunk) t
            else Next writes' t
        end
    end.

Fixpoint readFromRemoteWriteToLocal (reads : list RemoteRead)
    (writes : list LocalWrite) (t : TCPTunnel) {struct reads} : Outcome :=
  match ctx t with
  | None => Panicked t
  | Some true => Returned t
  | Some false =>
      let t := emit (EvSetReadDeadline (Some TCPTimeout)) t in
      match reads with
      | [] => Starved t
      | r :: reads' =>
          match rerr r with
          | Some err =>
              if negb (IsTimeout err) && negb (IsConnectionReset err)
                 && negb (IsEOF err)
              then Close (Some err) (emit (EvLogPrintln err) t)
              else Close None t
          | None =>
              let t := emit (EvSetReadDeadline None) t in
              if (0 <? length (rdata r))%nat
                 && negb (bool_decide (RemoteStatus t = StatusClosed))
              then
                match writeAllToLocal writes (rdata r) t with
                | Next writes' t' =>
                    readFromRemoteWriteToLocal reads' writes' t'
                | Stop o => o
                end
              else Returned t
          end
      end
  end.

(** The [writeAllPacket] loop of [readFromLocalWriteToRemote]. *)
Fixpoint writeAllToRemote (writes : list RemoteWrite) (v : list byte)
    (t : TCPTunnel) {struct writes} : Flow (list RemoteWrite) :=
  if (length v <=? 0)%nat then Next writes t
  else
    match writes with
    | [] => Stop (Starved t)
    | w :: writes' =>
        let t := emit (EvRemoteWrite v) t in
        let n := rn w in
        match rwerr w with
        | Some err =>
            if IsBrokenPipe err || IsEOF err
            then Stop (Close None t)
            else Stop (Close (Some err) (emit (EvLogPrintln err) t))
        | None =>
            if (n <? length v)%nat
            then writeAllToRemote writes' (drop n v) t
            else Next writes' t
        end
    end.

(** The loop of [readFromLocalWriteToRemote].  On would-block the pump
    waits for the context or for the notification; the context cannot
    change inside one run of the pump, so a cancelled context is seen at
    the head of the loop. *)
Fixpoint readFromLocalLoop (reads : list LocalRead)
    (writes : list RemoteWrite) (t : TCPTunnel) {struct reads} : Outcome :=
  match ctx t with
  | None => Panicked t
  | Some true => Returned t
  | Some false =>
      match reads with
      | [] => Starved t
      | r :: reads' =>
          match lerr r with
          | Some err =>
              if bool_decide (err = ErrWouldBlock)
              then if notified r
                   then readFromLocalLoop reads' writes t
                   else Starved t
              else if bool_decide (err = ErrClosedForSend)
                      || bool_decide (err = ErrClosedForReceive)
              then Returned t
              else if IsClosed err
              then Close None t
              else Close (Some ("read from local failed, "
                                +:+ tcpip_String err))
                         (emit (EvLogPrintln (tcpip_String err)) t)
          | None =>
              if negb (bool_decide (LocalEndpointStatus t = StatusClosed))
              then
                match writeAllToRemote writes (lv r) t with
                | Next writes' t' => readFromLocalLoop reads' writes' t'
                | Stop o => o
                end
              else Returned t
          end
      end
  end.

(** The deferred [EventUnregister] runs however the loop ends. *)
Definition afterLoop (o : Outcome) : Outcome :=
  match o with
  | Returned t => Returned (emit EvEventUnregister t)
  | Panicked t => Panicked (emit EvEventUnregister t)
  | Starved t => Starved t
  end.

Definition readFromLocalWriteToRemote (reads : list LocalRead)
    (writes : list RemoteWrite) (t : TCPTunnel) : Outcome :=
  afterLoop (readFromLocalLoop reads writes (emit EvEventRegister t)).

(** ** Run

    [Run] creates the context, starts the two pumps as goroutines, sets
    both statuses to proxying, waits for the pumps and calls [Close(nil)].
    Modelled from the spec: [util.WaitGroupWrapper], which starts a
    goroutine per [Wrap] and whose [Wait] returns once both have finished.

    The goroutines are interleaved with [Run] by a schedule.  A pump, once
    scheduled, runs to its end on its script; a call of [Close] is one
    step.  Every run of this model is a run of the program. *)
Inductive RunPC :=
| RunCreateCtx | RunWrapRemote | RunWrapLocal
| RunSetRemoteStatus | RunSetLocalStatus | RunWait | RunClose | RunDone.

Inductive PumpState := NotStarted | Started | Ended.

Record Config := mkConfig {
  tunnel : TCPTunnel;
  pc : RunPC;
  remotePump : PumpState;
  localPump : PumpState;
  remoteReads : list RemoteRead;
  localWrites : list LocalWrite;
  localReads : list LocalRead;
  remoteWrites : list RemoteWrite }.

Inductive Action :=
| ActRun                          (* the next statement of [Run] *)
| ActRemotePump                   (* [readFromRemoteWriteToLocal] *)
| ActLocalPump                    (* [readFromLocalWriteToRemote] *)
| ActClose (reason : option error). (* [Close] by another caller *)

Definition withTunnel (t : TCPTunnel) (cfg : Config) : Config :=
  mkConfig t (pc cfg) (remotePump cfg) (localPump cfg)
           (remoteReads cfg) (localWrites cfg)
           (localReads cfg) (remoteWrites cfg).

Definition withPC (p : RunPC) (cfg : Config) : Config :=
  mkConfig (tunnel cfg) p (remotePump cfg) (localPump cfg)
           (remoteReads cfg) (localWrites cfg)
           (localReads cfg) (remoteWrites cfg).

Definition withPumps (r l : PumpState) (cfg : Config) : Config :=
  mkConfig (tunnel cfg) (pc cfg) r l
           (remoteReads cfg) (localWrites cfg)
           (localReads cfg) (remoteWrites cfg).

Definition stepRun (cfg : Config) : option Config :=
  match pc cfg with
  | RunCreateCtx =>
      Some (withPC RunWrapRemote
              (withTunnel (setCtx (Some false) (tunnel cfg)) cfg))
  | RunWrapRemote =>
      Some (withPC RunWrapLocal (withPumps Started (localPump cfg) cfg))
  | RunWrapLocal =>
      Some (withPC RunSetRemoteStatus
              (withPumps (remotePump cfg) Started cfg))
  | RunSetRemoteStatus =>
      Some (withPC RunSetLocalStatus
              (withTunnel (SetRemoteStatus StatusProxying (tunnel cfg)) cfg))
  | RunSetLocalStatus =>
      Some (withPC RunWait
              (withTunnel (SetLocalEndpointStatus StatusProxying (tunnel cfg))
                          cfg))
  | RunWait =>
      match remotePump cfg, localPump cfg with
      | Ended, Ended => Some (withPC RunClose cfg)
      | _, _ => None
      end
  | RunClose =>
      match Close None (tunnel cfg) with
      | Returned t => Some (withPC RunDone (withTunnel t cfg))
      | _ => None
      end
  | RunDone => None
  end.

Definition step (a : Action) (cfg : Config) : option Config :=
  match a with
  | ActRun => stepRun cfg
  | ActRemotePump =>
      match remotePump cfg with
      | Started =>
          match readFromRemoteWriteToLocal (remoteReads cfg)
                  (localWrites cfg) (tunnel cfg) with
          | Returned t =>
              Some (withPumps Ended (localPump cfg) (withTunnel t cfg))
          | _ => None
          end
      | _ => None
      end
  | ActLocalPump =>
      match localPump cfg with
      | Started =>
          match readFromLocalWriteToRemote (localReads cfg)
                  (remoteWrites cfg) (tunnel cfg) with
          | Returned t =>
              Some (withPumps (remotePump cfg) Ended (withTunnel t cfg))
          | _ => None
          end
      | _ => None
      end
  | ActClose reason =>
      match Close reason (tunnel cfg) with
      | Returned t => Some (withTunnel t cfg)
      | _ => None
      end
  end.

Fixpoint exec (schedule : list Action) (cfg : Config) : option Config :=
  match schedule with
  | [] => Some cfg
  | a :: schedule =>
      match step a cfg with
      | Some cfg' => exec schedule cfg'
      | None => None
      end
  end.

End WithUtil.

(** The tunnel as [NewTCP2Socks] returns it. *)
Definition newTunnel (addr : string) : TCPTunnel :=
  mkTunnel StatusUnset StatusUnset addr None false [].

(** ** NewTCP2Socks

    [app.Proxies.Dial] answers with an error, with a [*net.TCPConn], or with
    another kind of connection, on which the type assertion of
    [SetKeepAlive] panics.  [GetByIP] touches the record it finds, so the
    table of [app.FakeDNS] is returned as well. *)
Inductive DialResult := DialFailed (err : error) | DialTCPConn | DialOtherConn.

Inductive SetupEvent :=
| EvDial (proxy addr : string)
| EvLogDialFailed (addr proxy : string) (err : error)
| EvSetKeepAlive
| EvSetDeadline.

Inductive NewResult :=
| NewTunnel (t : TCPTunnel)
| NewError (err : error)
| NewPanic.

(** [fmt.Sprintf("%v:%d", host, port)] *)
Definition hostPort (host : string) (port : Z) : string :=
  host +:+ ":" +:+ pretty port.

Section NewTCP2Socks.
Context `{Externals} {P : Type} `{!DNSIPPool P}.

Definition NewTCP2Socks (Dial : string → string → DialResult)
    (ip : net_IP) (port : Z) (now : Time) (FakeDNS : option (DNSTable P))
  : NewResult * option (DNSTable P) * list SetupEvent :=
  let '(target, FakeDNS') :=
    match FakeDNS with
    | Some c =>
        let '(record, c') := GetByIP ip now c in
        (match record with
         | Some record =>
             if String.eqb (Proxy record) "block"
             then inl (Hostname record +:+ " is blocked")
             else inr (hostPort (Hostname record) port, Proxy record)
         | None => inr (hostPort (IP_String ip) port, "")
         end, Some c')
    | None => (inr (hostPort (IP_String ip) port, ""), None)
    end in
  match target with
  | inl err => (NewError err, FakeDNS', [])
  | inr (addr, proxy) =>
      match Dial proxy addr with
      | DialFailed err =>
          (NewError err, FakeDNS',
           [EvDial proxy addr; EvLogDialFailed addr proxy err])
      | DialOtherConn => (NewPanic, FakeDNS', [EvDial proxy addr])
      | DialTCPConn =>
          (NewTunnel (newTunnel addr), FakeDNS',
           [EvDial proxy addr; EvSetKeepAlive; EvSetDeadline])
      end
  end.

End NewTCP2Socks.

(** ** Invariants of a started tunnel *)

(** The context exists; both ends have been closed once when the [Once] is
    done and not at all before; a done [Once] means a cancelled context. *)
Record TeardownInv (t : TCPTunnel) : Prop := mkTeardownInv {
  ti_ctx : ctx t ≠ None;
  ti_local : occurrences EvLocalEndpointClose (trace t)
             = if closeOne t then 1%nat else 0%nat;
  ti_remote : occurrences EvRemoteConnClose (trace t)
              = if closeOne t then 1%nat else 0%nat;
  ti_cancel : closeOne t = true → ctx t = Some true }.

Definition OutcomeInv (Q : TCPTunnel → Prop) (o : Outcome) : Prop :=
  match o with
  | Returned t | Starved t => Q t
  | Panicked _ => False
  end.

Definition FlowInv {S : Type} (Q : TCPTunnel → Prop) (f : Flow S) : Prop :=
  match f with
  | Next _ t => Q t
  | Stop o => OutcomeInv Q o
  end.

(** A closed status stays closed from [t] to [t']. *)
Definition ClosedKept (t t' : TCPTunnel) : Prop :=
  (remoteStatus t = StatusClosed → remoteStatus t' = StatusClosed) ∧
  (localEndpointStatus t = StatusClosed →
   localEndpointStatus t' = StatusClosed).

Definition tunnelOf (o : Outcome) : TCPTunnel :=
  match o with Returned t | Panicked t | Starved t => t end.

(** The chunks a write loop offers when the successive writes take
    [ns] bytes: each time what the writes before have not taken. *)
Fixpoint offered (v : list byte) (ns : list nat) : list (list byte) :=
  match ns with
  | [] => []
  | n :: ns => v :: offered (drop n v) ns
  end.

Definition emitAll (es : list Event) (t : TCPTunnel) : TCPTunnel :=
  mkTunnel (localEndpointStatus t) (remoteStatus t) (remoteAddr t)
           (ctx t) (closeOne t) (trace t ++ es).

(** The events a pump emits itself, outside [Close]. *)
Definition pumpEvent (e : Event) : bool :=
  match e with
  | EvEventRegister | EvEventUnregister | EvSetReadDeadline _
  | EvRemoteWrite _ | EvLocalWrite _ | EvLogPrintln _ => true
  | _ => false
  end.

(** What holds of a run of [Run] at each of its statements. *)
Definition RunInv (cfg : Config) : Prop :=
  match pc cfg with
  | RunCreateCtx =>
      ctx (tunnel cfg) = None ∧ closeOne (tunnel cfg) = false ∧
      trace (tunnel cfg) = [] ∧
      remotePump cfg = NotStarted ∧ localPump cfg = NotStarted
  | RunClose =>
      TeardownInv (tunnel cfg) ∧
      remotePump cfg = Ended ∧ localPump cfg = Ended
  | RunDone =>
      TeardownInv (tunnel cfg) ∧ closeOne (tunnel cfg) = true ∧
      remotePump cfg = Ended ∧ localPump cfg = Ended
  | _ => TeardownInv (tunnel cfg)
  end.

(** [Run] is past the two statements that set the statuses. *)
Definition statusesSet (p : RunPC) : bool :=
  match p with RunWait | RunClose | RunDone => true | _ => false end.

Definition startConfig (addr : string) (rr : list RemoteRead)
    (lw : list LocalWrite) (lr : list LocalRead) (rw : list RemoteWrite)
  : Config :=
  mkConfig (newTunnel addr) RunCreateCtx NotStarted NotStarted rr lw lr rw.

(** A classification of errors by their text, to run examples. *)
Definition sampleUtil : Util :=
  {| IsTimeout := λ e, bool_decide (e = "i/o timeout");
     IsConnectionReset := λ e, bool_decide (e = "connection reset by peer");
     IsEOF := λ e, bool_decide (e = "EOF");
     IsBrokenPipe := λ e, bool_decide (e = "broken pipe");
     IsClosed := λ e, bool_decide (e = ErrOther "endpoint is closed");
     tcpip_String := λ e, match e with
                          | ErrWouldBlock => "operation would block"
                          | ErrClosedForSend => "endpoint is closed for send"
                          | ErrClosedForReceive =>
                              "endpoint is closed for receive"
                          | ErrOther msg => msg
                          end;
     TCPTimeout := 60 |}.

(** The events of the teardown, for a reason. *)
Definition teardown (reason : option error) : list Event :=
  match reason with Some e => [EvLogClosed e] | None => [] end
  ++ [EvCtxCancel; EvLocalEndpointClose; EvRemoteConnClose].

(** A run of [Run] whose remote read returns zero bytes and whose local
    read finds the endpoint closed for receive. *)
Definition quietRun : Config :=
  startConfig "example.org:443"
    [mkRemoteRead [] None] []
    [mkLocalRead [] (Some ErrClosedForReceive) false] [].

Definition quietSchedule : list Action :=
  [ActRun; ActRun; ActRun; ActRun; ActRun;
   ActRemotePump; ActLocalPump; ActRun; ActRun].

(** A remote connection that is reset before the first read returns. *)
Definition resetRun : Config :=
  startConfig "example.org:443"
    [mkRemoteRead [] (Some "connection reset by peer")] [] [] [].

End Tunnel.

(** * The hijack table: theorems *)

Module DNSTheory.
Import DNS.

(** ** SetRealIP *)

Lemma scanAnswers_app answers item :
  scanAnswers (answers ++ [item]) =
  match item with
  | RR_A a => A a
  | RR_other _ => scanAnswers answers
  end.
Proof. unfold scanAnswers. rewrite fold_left_app. by destruct item. Qed.

Lemma scanAnswers_no_A answers :
  (∀ a, RR_A a ∉ answers) → scanAnswers answers = None.
Proof.
  induction answers as [|item answers IH] using rev_ind; [done|].
  intros Hno. rewrite scanAnswers_app. destruct item as [a|hdr].
  - exfalso. apply (Hno a), elem_of_app. right. apply list_elem_of_here.
  - apply IH. intros a Ha. apply (Hno a), elem_of_app. by left.
Qed.

Lemma scanAnswers_some_A answers a0 :
  RR_A a0 ∈ answers →
  ∃ a, RR_A a ∈ answers ∧ scanAnswers answers = A a.
Proof.
  induction answers as [|item answers IH] using rev_ind.
  - by intros ?%elem_of_nil.
  - intros [Hin|Hin]%elem_of_app; rewrite scanAnswers_app.
    + destruct item as [a|hdr].
      * exists a. split; [|done]. apply elem_of_app. right. by left.
      * destruct (IH Hin) as (a & Ha & Hscan).
        exists a. split; [|done]. apply elem_of_app. by left.
    + apply list_elem_of_singleton in Hin as <-.
      exists a0. split; [|done]. apply elem_of_app. right. by left.
Qed.

Lemma SetRealIP_fields msg record :
  Hostname (SetRealIP msg record) = Hostname record ∧
  IP (SetRealIP msg record) = IP record.
Proof. unfold SetRealIP. by destruct (RealIP record). Qed.

(** The write-once guard: a record whose real address is set is left as
    it is. *)
Lemma SetRealIP_write_once msg record :
  RealIP record ≠ None → SetRealIP msg record = record.
Proof. unfold SetRealIP. by destruct (RealIP record). Qed.

(** On an unset record the stored address is that of the last A record of
    the answers. *)
Lemma SetRealIP_stores_last_A record answers a rest :
  RealIP record = None → (∀ a', RR_A a' ∉ rest) →
  RealIP (SetRealIP (mkMsg (answers ++ RR_A a :: rest)) record) = A a.
Proof.
  intros Hnil Hrest. unfold SetRealIP. rewrite Hnil. simpl.
  induction rest as [|item rest IH] using rev_ind.
  - apply (scanAnswers_app answers (RR_A a)).
  - replace (answers ++ RR_A a :: rest ++ [item])
      with ((answers ++ RR_A a :: rest) ++ [item])
      by by rewrite <- app_assoc.
    rewrite scanAnswers_app. destruct item as [a'|hdr].
    + exfalso. apply (Hrest a'), elem_of_app. right. by left.
    + apply IH. intros a' Ha'. apply (Hrest a'), elem_of_app. by left.
Qed.

(** C4.  On a record whose real address is unset, a message with the A
    records 1.1.1.1 and 2.2.2.2, in this order, leaves 2.2.2.2 in the
    record: the last IPv4 answer, not the first. *)
Theorem SetRealIP_two_answers :
  RealIP (SetRealIP twoAnswers freshRecord) = Some [x02; x02; x02; x02] ∧
  RealIP (SetRealIP twoAnswers freshRecord) ≠ Some [x01; x01; x01; x01].
Proof. split; [reflexivity|discriminate]. Qed.

(** C9.  A message without A record leaves an unset real address unset, and
    a later message that carries A records, each with an address, sets it to
    the address of one of them. *)
Theorem SetRealIP_no_A_then_A record msg1 msg2 a0 :
  RealIP record = None →
  (∀ a, RR_A a ∉ Answer msg1) →
  RR_A a0 ∈ Answer msg2 →
  (∀ a, RR_A a ∈ Answer msg2 → A a ≠ None) →
  RealIP (SetRealIP msg1 record) = None ∧
  ∃ a, RR_A a ∈ Answer msg2 ∧ A a ≠ None ∧
       RealIP (SetRealIP msg2 (SetRealIP msg1 record)) = A a.
Proof.
  intros Hnil Hno Hin Haddr.
  assert (RealIP (SetRealIP msg1 record) = None) as Hfirst.
  { unfold SetRealIP. rewrite Hnil. simpl. by apply scanAnswers_no_A. }
  split; [done|].
  destruct (scanAnswers_some_A _ _ Hin) as (a & Ha & Hscan).
  exists a. split; [done|]. split; [by apply Haddr|].
  unfold SetRealIP at 1. by rewrite Hfirst.
Qed.

Lemma SetRealIP_no_A_then_A_witness :
  RealIP (SetRealIP (mkMsg [RR_other (mkHeader "a.example." 5 ClassINET 300)])
                    freshRecord) = None ∧
  ∃ a, RR_A a ∈ Answer twoAnswers ∧ A a ≠ None ∧
       RealIP (SetRealIP twoAnswers
                 (SetRealIP
                    (mkMsg [RR_other (mkHeader "a.example." 5 ClassINET 300)])
                    freshRecord)) = A a.
Proof.
  apply (SetRealIP_no_A_then_A freshRecord _ twoAnswers
           (mkA (mkHeader "a.example." TypeA ClassINET 300)
                (Some [x01; x01; x01; x01]))).
  - reflexivity.
  - intros a Ha. apply list_elem_of_singleton in Ha. discriminate Ha.
  - apply list_elem_of_here.
  - intros a Ha. apply elem_of_cons in Ha as [Ha|Ha].
    + injection Ha as ->. discriminate.
    + apply list_elem_of_singleton in Ha. injection Ha as ->. discriminate.
Defined.

Section WithPool.
Context `{Externals} {P : Type} `{!DNSIPPool P}.
Implicit Types (c : DNSTable P) (d domain : string) (r record : DomainRecord).

(** ** The invariant is inductive *)

Lemma Inv_New (pool : P) : Inv (NewDnsTable pool).
Proof.
  split; simpl; intros *; rewrite lookup_empty; done.
Qed.

(** Two live records with the same address are the same record. *)
Lemma Inv_shared_address c d1 d2 r1 r2 :
  Inv c → records c !! d1 = Some r1 → records c !! d2 = Some r2 →
  IP_String (IP r1) = IP_String (IP r2) → d1 = d2.
Proof.
  intros HI H1 H2 Heq.
  pose proof (inv_reverse c HI _ _ H1) as E1.
  pose proof (inv_reverse c HI _ _ H2) as E2.
  rewrite Heq in E1. congruence.
Qed.

Lemma Inv_Bijective c : Inv c → Bijective c.
Proof.
  intros HI. split.
  - intros d r Hr. rewrite (inv_hostname c HI _ _ Hr).
    by apply (inv_reverse c HI).
  - intros *. by apply Inv_shared_address.
Qed.

(** Replacing a record by one with the same hostname and address. *)
Lemma Inv_updateRecord c d r r' :
  Inv c → records c !! d = Some r →
  Hostname r' = Hostname r → IP r' = IP r →
  Inv (updateRecord d r' c).
Proof.
  intros HI Hr Hh Hip. split; simpl.
  - intros d0 r0. rewrite lookup_insert. case_decide; simplify_eq.
    + intros [= <-]. rewrite Hh. by apply (inv_hostname c HI).
    + by apply (inv_hostname c HI).
  - intros d0 r0. rewrite lookup_insert. case_decide; simplify_eq.
    + intros [= <-]. rewrite Hip. by apply (inv_reverse c HI).
    + by apply (inv_reverse c HI).
  - intros k d0 Hk. destruct (inv_forward c HI _ _ Hk) as (r0 & Hr0 & Hk0).
    destruct (decide (d = d0)) as [->|Hne].
    + exists r'. rewrite lookup_insert_eq. split; [done|]. congruence.
    + exists r0. by rewrite lookup_insert_ne.
  - intros d0 r0. rewrite lookup_insert. case_decide; simplify_eq.
    + intros [= <-]. rewrite Hip. by apply (inv_pool c HI d0).
    + by apply (inv_pool c HI).
Qed.

Lemma Inv_get domain now c : Inv c → Inv (get domain now c).2.
Proof.
  intros HI. unfold get. destruct (records c !! domain) as [r|] eqn:Hr; [|done].
  by apply (Inv_updateRecord c domain r).
Qed.

Lemma Inv_GetByIP ip now c : Inv c → Inv (GetByIP ip now c).2.
Proof.
  intros HI. unfold GetByIP. destruct (ip2Domain c !! IP_String ip); [|done].
  by apply Inv_get.
Qed.

Lemma Inv_Set domain proxy now c : Inv c → Inv (Set_ domain proxy now c).1.2.
Proof.
  intros HI. unfold Set_.
  destruct (records c !! domain) as [r|] eqn:Hr; [done|].
  destruct (Alloc domain (ipPool c)) as [ip pool] eqn:Halloc.
  destruct ip as [bytes|]; simpl.
  - destruct (Alloc_outstanding _ _ _ _ Halloc) as [Hfresh Hout]; [done|].
    split; simpl.
    + intros d0 r0. rewrite lookup_insert. case_decide; simplify_eq.
      * by intros [= <-].
      * by apply (inv_hostname c HI).
    + intros d0 r0. rewrite lookup_insert. case_decide; simplify_eq.
      * intros [= <-]. simpl. by rewrite lookup_insert_eq.
      * intros Hr0. rewrite lookup_insert_ne; [by apply (inv_reverse c HI)|].
        intros Heq. apply Hfresh. rewrite Heq. by apply (inv_pool c HI d0).
    + intros k d0. rewrite lookup_insert. case_decide; simplify_eq.
      * intros [= <-]. eexists. by rewrite lookup_insert_eq.
      * intros Hk. destruct (inv_forward c HI _ _ Hk) as (r0 & Hr0 & Hk0).
        exists r0. split; [|done]. rewrite lookup_insert_ne; [done|].
        congruence.
    + intros d0 r0. rewrite Hout, lookup_insert. case_decide; simplify_eq.
      * intros [= <-]. simpl. apply elem_of_union. left.
        by apply elem_of_singleton.
      * intros Hr0. apply elem_of_union. right. by apply (inv_pool c HI d0).
  - destruct HI as [Hh Hrev Hfw Hpool]. split; simpl; try done.
    intros d0 r0 Hr0. rewrite (Alloc_nil_outstanding _ _ _ Halloc). eauto.
Qed.

Lemma Inv_releaseRecord c d r :
  Inv c → records c !! d = Some r → Inv (releaseRecord d r c).
Proof.
  intros HI Hr.
  assert (Hother : ∀ d0 r0, d0 ≠ d → records c !! d0 = Some r0 →
                            IP_String (IP r0) ≠ IP_String (IP r)).
  { intros d0 r0 Hne Hr0 Heq. apply Hne.
    by apply (Inv_shared_address c d0 d r0 r). }
  split; simpl.
  - intros d0 r0 [Hne Hr0]%lookup_delete_Some. by apply (inv_hostname c HI).
  - intros d0 r0 [Hne Hr0]%lookup_delete_Some.
    rewrite lookup_delete_ne; [by apply (inv_reverse c HI)|].
    intros Heq. by apply (Hother d0 r0).
  - intros k d0 [Hne Hk]%lookup_delete_Some.
    destruct (inv_forward c HI _ _ Hk) as (r0 & Hr0 & Hk0).
    exists r0. split; [|done]. rewrite lookup_delete_ne; [done|].
    intros <-. congruence.
  - intros d0 r0 [Hne Hr0]%lookup_delete_Some.
    rewrite Release_outstanding. apply elem_of_difference. split.
    + by apply (inv_pool c HI d0).
    + intros Hin%elem_of_singleton. by apply (Hother d0 r0).
Qed.

(** The invariant reads the pool, the records and the reverse index only. *)
Lemma Inv_ext c c' :
  ipPool c' = ipPool c → records c' = records c →
  ip2Domain c' = ip2Domain c → Inv c → Inv c'.
Proof.
  intros Hp Hr Hi [Hh Hrev Hfw Hpool].
  split; rewrite ?Hp, ?Hr, ?Hi; done.
Qed.

(** *** The sweep of the hijack records *)

Lemma sweep_fold_records now c (m : gmap string DomainRecord) d :
  records (map_fold (sweepRecord now) (c, []) m).1 !! d =
  match m !! d with
  | Some r => if Before (Expires r) now then None else records c !! d
  | None => records c !! d
  end.
Proof.
  revert d. apply (map_fold_weak_ind (λ acc m, ∀ d,
    records acc.1 !! d =
    match m !! d with
    | Some r => if Before (Expires r) now then None else records c !! d
    | None => records c !! d
    end)); clear m.
  - intros d. by rewrite lookup_empty.
  - intros i x m acc Hi IH d. unfold sweepRecord.
    destruct (decide (i = d)) as [->|Hne].
    + rewrite lookup_insert_eq. destruct (Before (Expires x) now); simpl.
      * by rewrite lookup_delete_eq.
      * by rewrite IH, Hi.
    + rewrite lookup_insert_ne by done.
      destruct (Before (Expires x) now); simpl; [|by apply IH].
      rewrite lookup_delete_ne by done. apply IH.
Qed.

Lemma sweep_fold_released now c (m : gmap string DomainRecord) d r :
  m !! d = Some r → Before (Expires r) now = true →
  ip2Domain (map_fold (sweepRecord now) (c, []) m).1 !! IP_String (IP r)
    = None ∧
  IP_String (IP r) ∉ outstanding (ipPool (map_fold (sweepRecord now) (c, []) m).1).
Proof.
  revert d r. apply (map_fold_weak_ind (λ acc m, ∀ d r,
    m !! d = Some r → Before (Expires r) now = true →
    ip2Domain acc.1 !! IP_String (IP r) = None ∧
    IP_String (IP r) ∉ outstanding (ipPool acc.1))); clear m.
  - intros d r. by rewrite lookup_empty.
  - intros i x m acc Hi IH d r Hd Hexp. unfold sweepRecord.
    destruct (decide (i = d)) as [->|Hne].
    + rewrite lookup_insert_eq in Hd. injection Hd as ->.
      rewrite Hexp. simpl. rewrite lookup_delete_eq, Release_outstanding.
      split; [done|]. intros [_ Hn]%elem_of_difference.
      by apply Hn, elem_of_singleton.
    + rewrite lookup_insert_ne in Hd by done.
      destruct (IH d r Hd Hexp) as [IH1 IH2].
      destruct (Before (Expires x) now); simpl; [|done].
      rewrite Release_outstanding. split.
      * apply lookup_delete_None. by right.
      * intros [Hin _]%elem_of_difference. by apply IH2.
Qed.

Lemma sweep_fold_nonProxyDomains now c (m : gmap string DomainRecord) :
  nonProxyDomains (map_fold (sweepRecord now) (c, []) m).1 = nonProxyDomains c.
Proof.
  apply (map_fold_weak_ind (λ acc _, nonProxyDomains acc.1 = nonProxyDomains c));
    [done|].
  intros i x m' acc _ IH. unfold sweepRecord.
  by destruct (negb (Before (Expires x) now)).
Qed.

Lemma sweep_fold_Inv now c (m : gmap string DomainRecord) :
  Inv c → m ⊆ records c →
  Inv (map_fold (sweepRecord now) (c, []) m).1.
Proof.
  intros HI Hsub.
  enough (Inv (map_fold (sweepRecord now) (c, []) m).1 ∧
          ∀ d, m !! d = None →
               records (map_fold (sweepRecord now) (c, []) m).1 !! d
               = records c !! d) as [? _]; [done|].
  revert Hsub. apply (map_fold_weak_ind (λ acc m,
    m ⊆ records c →
    Inv acc.1 ∧ ∀ d, m !! d = None → records acc.1 !! d = records c !! d));
    clear m; [done|].
  intros i x m acc Hi IH Hsub.
  assert (records c !! i = Some x) as Hx.
  { eapply lookup_weaken; [|exact Hsub]. apply lookup_insert_eq. }
  destruct IH as [HIacc Hrest].
  { etrans; [|exact Hsub]. by apply insert_subseteq. }
  unfold sweepRecord. destruct (Before (Expires x) now); simpl.
  - split.
    + apply Inv_releaseRecord; [done|]. by rewrite Hrest.
    + intros d [Hd Hne]%lookup_insert_None.
      rewrite lookup_delete_ne by done. by apply Hrest.
  - split; [done|]. intros d [Hd Hne]%lookup_insert_None. by apply Hrest.
Qed.

Lemma Inv_clearExpiredDomain now c : Inv c → Inv (clearExpiredDomain now c).1.
Proof.
  intros HI. unfold clearExpiredDomain.
  destruct (Z.of_nat (size (records c)) <=? threshold c); [done|].
  by apply sweep_fold_Inv.
Qed.

(** *** The sweep of the non-proxy set *)

Lemma clearExpiredNonProxyDomain_hijack now c :
  ipPool (clearExpiredNonProxyDomain now c).1 = ipPool c ∧
  records (clearExpiredNonProxyDomain now c).1 = records c ∧
  ip2Domain (clearExpiredNonProxyDomain now c).1 = ip2Domain c.
Proof.
  unfold clearExpiredNonProxyDomain.
  apply (map_fold_weak_ind (λ acc _,
    ipPool acc.1 = ipPool c ∧ records acc.1 = records c ∧
    ip2Domain acc.1 = ip2Domain c)); [done|].
  intros i x m acc _ IH. by destruct (Before x now).
Qed.

Lemma Inv_clearExpiredNonProxyDomain now c :
  Inv c → Inv (clearExpiredNonProxyDomain now c).1.
Proof.
  destruct (clearExpiredNonProxyDomain_hijack now c) as (Hp & Hr & Hi).
  by apply Inv_ext.
Qed.

(** *** Reload *)

Lemma clearNonProxy_fold_hijack c (m : gmap string Time) :
  let c1 := map_fold (λ domain (_ : Time), deleteNonProxy domain) c m in
  ipPool c1 = ipPool c ∧ records c1 = records c ∧ ip2Domain c1 = ip2Domain c.
Proof.
  simpl. apply (map_fold_weak_ind (λ acc _,
    ipPool acc = ipPool c ∧ records acc = records c ∧
    ip2Domain acc = ip2Domain c)); done.
Qed.

Lemma release_fold_records c (m : gmap string DomainRecord) d :
  records (map_fold releaseRecord c m) !! d =
  match m !! d with Some _ => None | None => records c !! d end.
Proof.
  revert d. apply (map_fold_weak_ind (λ acc m, ∀ d,
    records acc !! d =
    match m !! d with Some _ => None | None => records c !! d end)); clear m.
  - intros d. by rewrite lookup_empty.
  - intros i x m acc Hi IH d. simpl. destruct (decide (i = d)) as [->|Hne].
    + by rewrite lookup_insert_eq, lookup_delete_eq.
    + rewrite lookup_insert_ne, lookup_delete_ne by done. apply IH.
Qed.

Lemma release_fold_Inv c (m : gmap string DomainRecord) :
  Inv c → m ⊆ records c → Inv (map_fold releaseRecord c m).
Proof.
  intros HI Hsub.
  enough (Inv (map_fold releaseRecord c m) ∧
          ∀ d, m !! d = None →
               records (map_fold releaseRecord c m) !! d = records c !! d)
    as [? _]; [done|].
  revert Hsub. apply (map_fold_weak_ind (λ acc m,
    m ⊆ records c →
    Inv acc ∧ ∀ d, m !! d = None → records acc !! d = records c !! d));
    clear m; [done|].
  intros i x m acc Hi IH Hsub.
  assert (records c !! i = Some x) as Hx.
  { eapply lookup_weaken; [|exact Hsub]. apply lookup_insert_eq. }
  destruct IH as [HIacc Hrest].
  { etrans; [|exact Hsub]. by apply insert_subseteq. }
  split.
  - apply Inv_releaseRecord; [done|]. by rewrite Hrest.
  - intros d [Hd Hne]%lookup_insert_None. simpl.
    rewrite lookup_delete_ne by done. by apply Hrest.
Qed.

Lemma Reload_records ip subnet c : records (Reload ip subnet c).1 = ∅.
Proof.
  apply map_eq. intros d. unfold Reload. simpl.
  rewrite release_fold_records, lookup_empty.
  by destruct (records _ !! d).
Qed.

Lemma Reload_nonProxyDomains ip subnet c :
  nonProxyDomains (Reload ip subnet c).1 = ∅.
Proof.
  unfold Reload. simpl.
  set (c1 := map_fold (λ domain (_ : Time), deleteNonProxy domain) c
                      (nonProxyDomains c)).
  assert (nonProxyDomains c1 = ∅) as Hc1.
  { apply map_eq. intros d. rewrite lookup_empty. subst c1.
    enough (∀ m : gmap string Time,
      nonProxyDomains (map_fold (λ domain (_ : Time), deleteNonProxy domain)
                                c m) !! d =
      match m !! d with Some _ => None | None => nonProxyDomains c !! d end)
      as Hen.
    { rewrite Hen. by destruct (nonProxyDomains c !! d). }
    intros m. apply (map_fold_weak_ind (λ acc m,
      nonProxyDomains acc !! d =
      match m !! d with Some _ => None | None => nonProxyDomains c !! d end)).
    - by rewrite lookup_empty.
    - intros i x m' acc Hi IH. simpl. destruct (decide (i = d)) as [->|Hne].
      + by rewrite lookup_insert_eq, lookup_delete_eq.
      + by rewrite lookup_insert_ne, lookup_delete_ne. }
  rewrite <- Hc1.
  apply (map_fold_weak_ind (λ acc _, nonProxyDomains acc = nonProxyDomains c1));
    done.
Qed.

Lemma Inv_Reload ip subnet c : Inv c → Inv (Reload ip subnet c).1.
Proof.
  intros HI. unfold Reload. simpl.
  destruct (clearNonProxy_fold_hijack c (nonProxyDomains c)) as (Hp & Hr & Hi).
  apply release_fold_Inv; [|done]. by apply (Inv_ext c).
Qed.

(** After [Reload] the reverse index is empty as well. *)
Lemma Reload_ip2Domain ip subnet c :
  Inv c → ip2Domain (Reload ip subnet c).1 = ∅.
Proof.
  intros HI. apply map_eq. intros k. rewrite lookup_empty.
  destruct (ip2Domain (Reload ip subnet c).1 !! k) as [d|] eqn:Hk; [|done].
  destruct (inv_forward _ (Inv_Reload ip subnet c HI) _ _ Hk) as (r & Hr & _).
  by rewrite Reload_records, lookup_empty in Hr.
Qed.

(** *** Every reachable table satisfies the invariant *)

Lemma reachable_Inv c : reachable c → Inv c.
Proof.
  induction 1 as [pool|domain proxy now c _ IH|domain now c _ IH
                  |ip now c _ IH|domain record msg c _ IH Hrec
                  |domain ttl now c _ IH|now c _ IH|now c _ IH
                  |ip subnet c _ IH].
  - apply Inv_New.
  - by apply Inv_Set.
  - by apply Inv_get.
  - by apply Inv_GetByIP.
  - destruct (SetRealIP_fields msg record) as [Hh Hip].
    by apply (Inv_updateRecord c domain record).
  - by apply (Inv_ext c).
  - by apply Inv_clearExpiredDomain.
  - by apply Inv_clearExpiredNonProxyDomain.
  - by apply Inv_Reload.
Qed.

(** ** The claims about the table *)

(** C1.  In every table the package can build, the reverse index maps the
    address of each live record back to the record's hostname and no two
    live records share an address; this still holds after [Set], after the
    reaper's sweep of the records and after [Reload]. *)
Theorem bijection_invariant c :
  reachable c →
  Bijective c ∧
  (∀ domain proxy now, Bijective (Set_ domain proxy now c).1.2) ∧
  (∀ now, Bijective (clearExpiredDomain now c).1) ∧
  (∀ ip subnet, Bijective (Reload ip subnet c).1).
Proof.
  intros HI%reachable_Inv. repeat split; intros *.
  - by apply Inv_Bijective.
  - by apply Inv_Bijective.
  - by apply Inv_Bijective, Inv_Set.
  - by apply Inv_Bijective, Inv_Set.
  - by apply Inv_Bijective, Inv_clearExpiredDomain.
  - by apply Inv_Bijective, Inv_clearExpiredDomain.
  - by apply Inv_Bijective, Inv_Reload.
  - by apply Inv_Bijective, Inv_Reload.
Qed.

(** What a successful [Set] leaves in the table. *)
Lemma Set_Some domain proxy now c rec c1 log1 :
  Set_ domain proxy now c = (Some rec, c1, log1) →
  records c1 !! domain = Some rec ∧
  (records c !! domain = None →
   Hostname rec = domain ∧
   ip2Domain c1 !! IP_String (IP rec) = Some domain ∧
   (IP_String (IP rec) ∉ outstanding (ipPool c)) ∧
   outstanding (ipPool c1) = {[IP_String (IP rec)]} ∪ outstanding (ipPool c)) ∧
  (is_Some (records c !! domain) → c1 = c ∧ log1 = []).
Proof.
  unfold Set_. destruct (records c !! domain) as [r|] eqn:Hr.
  - intros [= <- <- <-]. split; [done|]. split; [done|]. by intros _.
  - destruct (Alloc domain (ipPool c)) as [ip pool] eqn:Halloc.
    destruct ip as [bytes|]; [|done].
    intros [= <- <- <-]. simpl.
    destruct (Alloc_outstanding _ _ _ _ Halloc) as [Hfresh Hout]; [done|].
    rewrite !lookup_insert_eq. split; [done|]. split; [done|].
    by intros [? ?].
Qed.

(** C2.  When [Set D P] returns a record, a second [Set D P] returns the
    same record and changes nothing; for a domain that was new the two calls
    together take exactly one address from the pool, for a known domain they
    take none; and [GetByIP] at the record's address finds a record whose
    hostname is [D]. *)
Theorem Set_idempotent_roundtrip c D tag now1 now2 now3 rec c1 log1 :
  reachable c →
  Set_ D tag now1 c = (Some rec, c1, log1) →
  Set_ D tag now2 c1 = (Some rec, c1, []) ∧
  (records c !! D = None →
   (IP_String (IP rec) ∉ outstanding (ipPool c)) ∧
   outstanding (ipPool c1) = {[IP_String (IP rec)]} ∪ outstanding (ipPool c) ∧
   size (outstanding (ipPool c1)) = S (size (outstanding (ipPool c)))) ∧
  (is_Some (records c !! D) → ipPool c1 = ipPool c) ∧
  ∃ rec', (GetByIP (IP rec) now3 c1).1 = Some rec' ∧ Hostname rec' = D.
Proof.
  intros Hreach HSet.
  destruct (Set_Some _ _ _ _ _ _ _ HSet) as (Hrec & Hnew & Hold).
  assert (Inv c1) as HI1.
  { replace c1 with (Set_ D tag now1 c).1.2 by by rewrite HSet.
    by apply Inv_Set, reachable_Inv. }
  split; [|split; [|split]].
  - unfold Set_. by rewrite Hrec.
  - intros Hnone. destruct (Hnew Hnone) as (_ & _ & Hfresh & Hout).
    repeat split; try done.
    rewrite Hout, size_union, size_singleton; [done|].
    intros k ->%elem_of_singleton. done.
  - intros Hsome. by destruct (Hold Hsome) as [-> _].
  - exists (Touch now3 rec). unfold GetByIP, get.
    rewrite (inv_reverse c1 HI1 _ _ Hrec), Hrec. simpl.
    split; [done|]. by apply (inv_hostname c1 HI1).
Qed.

(** When the pool has no address left, [Set] changes nothing but the pool
    object, whose outstanding addresses stay the same. *)
Lemma Set_exhausted domain proxy now c pool :
  records c !! domain = None →
  Alloc domain (ipPool c) = (None, pool) →
  Set_ domain proxy now c =
    (None, mkTable pool (records c) (ip2Domain c) (nonProxyDomains c),
     [LogIPSpaceUsedUp domain]) ∧
  outstanding pool = outstanding (ipPool c).
Proof.
  intros Hr Halloc. unfold Set_. rewrite Hr, Halloc. split; [done|].
  by apply (Alloc_nil_outstanding domain).
Qed.

(** The closed form of the sweep, once the table is above the threshold. *)
Lemma clearExpiredDomain_above now c :
  threshold c < Z.of_nat (size (records c)) →
  let c' := (clearExpiredDomain now c).1 in
  (∀ d r, records c !! d = Some r → Before (Expires r) now = true →
          records c' !! d = None ∧
          ip2Domain c' !! IP_String (IP r) = None ∧
          IP_String (IP r) ∉ outstanding (ipPool c')) ∧
  (∀ d r, records c !! d = Some r → Before (Expires r) now = false →
          records c' !! d = Some r) ∧
  (∀ d, records c !! d = None → records c' !! d = None).
Proof.
  intros Hlt. unfold clearExpiredDomain.
  destruct (Z.leb_spec (Z.of_nat (size (records c))) (threshold c)); [lia|].
  simpl. split; [|split].
  - intros d r Hr Hexp. split.
    + rewrite sweep_fold_records. by rewrite Hr, Hexp.
    + by eapply sweep_fold_released.
  - intros d r Hr Hexp. rewrite sweep_fold_records. by rewrite Hr, Hexp.
  - intros d Hr. rewrite sweep_fold_records. by rewrite Hr.
Qed.

Lemma clearExpiredDomain_below now c :
  Z.of_nat (size (records c)) ≤ threshold c →
  clearExpiredDomain now c = (c, []).
Proof.
  intros Hle. unfold clearExpiredDomain.
  destruct (Z.leb_spec (Z.of_nat (size (records c))) (threshold c)); [done|lia].
Qed.

(** C3, as the code has it.  With a pool of capacity 100 the threshold is
    10; a table of at most 10 records is left alone by the sweep, whatever
    has expired; a table of 11 or more records loses every expired record,
    with its reverse entry and its address, and keeps the others. *)
Theorem reaper_threshold_gating c now :
  Capacity (ipPool c) = 100 →
  threshold c = 10 ∧
  ((size (records c) ≤ 10)%nat → clearExpiredDomain now c = (c, [])) ∧
  ((11 ≤ size (records c))%nat →
   let c' := (clearExpiredDomain now c).1 in
   (∀ d r, records c !! d = Some r → Before (Expires r) now = true →
           records c' !! d = None ∧
           ip2Domain c' !! IP_String (IP r) = None ∧
           IP_String (IP r) ∉ outstanding (ipPool c')) ∧
   (∀ d r, records c !! d = Some r → Before (Expires r) now = false →
           records c' !! d = Some r)).
Proof.
  intros Hcap.
  assert (threshold c = 10) as Hth by (unfold threshold; by rewrite Hcap).
  split; [done|]. split.
  - intros Hle. apply clearExpiredDomain_below. lia.
  - intros Hge. simpl.
    destruct (clearExpiredDomain_above now c) as (He & Hk & _); [lia|].
    by split.
Qed.

End WithPool.

(** C6.  When the domain has no record and the pool returns no address,
    [Set] logs, returns no record, and leaves the records, the reverse index
    and the non-proxy set as they were, with the same addresses outstanding
    in the pool.  A later attempt can succeed: on a full pool of four
    addresses [Set] fails, and succeeds once the sweep has evicted the
    expired records. *)
Theorem Set_exhausted_atomic :
  (∀ (E : Externals) (P : Type) (DP : DNSIPPool P) (c : DNSTable P)
     (domain proxy : string) (now : Time) (pool : P),
     records c !! domain = None →
     Alloc domain (ipPool c) = (None, pool) →
     (Set_ domain proxy now c).1.1 = None ∧
     (Set_ domain proxy now c).2 = [LogIPSpaceUsedUp domain] ∧
     records (Set_ domain proxy now c).1.2 = records c ∧
     ip2Domain (Set_ domain proxy now c).1.2 = ip2Domain c ∧
     nonProxyDomains (Set_ domain proxy now c).1.2 = nonProxyDomains c ∧
     outstanding (ipPool (Set_ domain proxy now c).1.2)
       = outstanding (ipPool c)) ∧
  (let failed := Set_ (H := sampleExternals) "late.example" "proxy" 1
                      fullTable in
   let swept := clearExpiredDomain (H := sampleExternals) afterTTL
                                   failed.1.2 in
   failed.1.1 = None ∧
   is_Some (Set_ (H := sampleExternals) "late.example" "proxy" afterTTL
                 swept.1).1.1).
Proof.
  split.
  - intros E P DP c domain proxy now pool Hr Halloc.
    destruct (Set_exhausted domain proxy now c pool Hr Halloc) as [-> Hout].
    by simpl.
  - split; vm_compute; [reflexivity|by eexists].
Qed.

Lemma Set_exhausted_atomic_witness :
  (Set_ (H := sampleExternals) "late.example" "proxy" 1 fullTable).1.1 = None ∧
  records (Set_ (H := sampleExternals) "late.example" "proxy" 1 fullTable).1.2
    = records fullTable.
Proof.
  destruct (proj1 Set_exhausted_atomic sampleExternals ListPool _ fullTable
              "late.example" "proxy" 1 (ipPool fullTable))
    as (Hnone & _ & Hrec & _).
  - vm_compute. reflexivity.
  - vm_compute. reflexivity.
  - split; [exact Hnone|exact Hrec].
Defined.

(** ** The claims on concrete tables *)

(** ** Further properties of the table *)

Section More.
Context `{Externals} {P : Type} `{!DNSIPPool P}.
Implicit Types (c : DNSTable P) (d domain : string) (r record : DomainRecord).

(** A hit of the reverse index always finds a record: the one of the
    indexed domain, whose address reads as the queried one; the record is
    returned touched and the table holds the touched record. *)
Theorem GetByIP_hit ip now c d :
  reachable c → ip2Domain c !! IP_String ip = Some d →
  ∃ r, records c !! d = Some r ∧
       Hostname r = d ∧ IP_String (IP r) = IP_String ip ∧
       GetByIP ip now c = (Some (Touch now r), updateRecord d (Touch now r) c).
Proof.
  intros HI%reachable_Inv Hk.
  destruct (inv_forward c HI _ _ Hk) as (r & Hr & Hkey).
  exists r. split; [done|]. split; [by apply (inv_hostname c HI)|].
  split; [done|]. unfold GetByIP, get. by rewrite Hk, Hr.
Qed.

(** Sliding expiry: a record returned by [Get] at [now0] outlives every
    sweep up to [now0] plus the TTL, and is evicted by a sweep after that
    time once the table is above the threshold. *)
Theorem Get_then_sweep domain now0 now1 c r c' :
  Get domain now0 c = (Some r, c') →
  (now1 ≤ now0 + DNSDefaultTTL * Second →
   records (clearExpiredDomain now1 c').1 !! domain = Some r) ∧
  (now0 + DNSDefaultTTL * Second < now1 →
   threshold c' < Z.of_nat (size (records c')) →
   records (clearExpiredDomain now1 c').1 !! domain = None).
Proof.
  unfold Get, get. destruct (records c !! domain) as [r0|] eqn:Hr0; [|done].
  intros [= <- <-].
  remember (mkTable _ _ _ _) as c' eqn:Hc'.
  assert (records c' !! domain = Some (Touch now0 r0)) as Hr
    by (subst c'; apply lookup_insert_eq).
  clear Hc'. split.
  - intros Hle. unfold clearExpiredDomain.
    destruct (Z.of_nat (size (records c')) <=? threshold c'); [done|].
    simpl. rewrite sweep_fold_records, Hr. simpl. unfold Before.
    destruct (Z.ltb_spec (now0 + DNSDefaultTTL * Second) now1); [lia|done].
  - intros Hlt Habove.
    destruct (clearExpiredDomain_above now1 c' Habove) as (Hevict & _).
    apply (Hevict domain (Touch now0 r0) Hr). simpl. unfold Before.
    by apply Z.ltb_lt.
Qed.

(** *** No address leaks *)

Lemma NoLeak_ext c c' :
  ipPool c' = ipPool c → records c' = records c → NoLeak c → NoLeak c'.
Proof. unfold NoLeak. by intros -> ->. Qed.

Lemma NoLeak_updateRecord c d r r' :
  records c !! d = Some r → IP r' = IP r →
  NoLeak c → NoLeak (updateRecord d r' c).
Proof.
  intros Hr Hip HN k. rewrite (HN k). simpl. split.
  - intros (d0 & r0 & Hr0 & Hk). destruct (decide (d = d0)) as [->|Hne].
    + exists d0, r'. rewrite lookup_insert_eq. split; [done|]. congruence.
    + exists d0, r0. by rewrite lookup_insert_ne.
  - intros (d0 & r0 & Hr0 & Hk). destruct (decide (d = d0)) as [->|Hne].
    + rewrite lookup_insert_eq in Hr0. injection Hr0 as <-.
      exists d0, r. split; [done|]. congruence.
    + rewrite lookup_insert_ne in Hr0 by done. by exists d0, r0.
Qed.

Lemma NoLeak_Set domain proxy now c :
  NoLeak c → NoLeak (Set_ domain proxy now c).1.2.
Proof.
  intros HN. unfold Set_.
  destruct (records c !! domain) as [r|] eqn:Hr; [done|].
  destruct (Alloc domain (ipPool c)) as [ip pool] eqn:Halloc.
  destruct ip as [bytes|]; simpl.
  - destruct (Alloc_outstanding _ _ _ _ Halloc) as [_ Hout]; [done|].
    intros k. simpl. rewrite Hout, elem_of_union, elem_of_singleton, (HN k).
    split.
    + intros [->|(d0 & r0 & Hr0 & Hk)].
      * eexists domain, _. by rewrite lookup_insert_eq.
      * exists d0, r0. split; [|done]. rewrite lookup_insert_ne; [done|].
        congruence.
    + intros (d0 & r0 & Hr0 & Hk). destruct (decide (domain = d0)) as [->|Hne].
      * rewrite lookup_insert_eq in Hr0. injection Hr0 as <-. by left.
      * rewrite lookup_insert_ne in Hr0 by done. right. by exists d0, r0.
  - intros k. simpl. rewrite (Alloc_nil_outstanding _ _ _ Halloc). apply HN.
Qed.

Lemma NoLeak_releaseRecord c d r :
  Inv c → records c !! d = Some r → NoLeak c → NoLeak (releaseRecord d r c).
Proof.
  intros HI Hr HN k. simpl.
  rewrite Release_outstanding, elem_of_difference, elem_of_singleton, (HN k).
  split.
  - intros [(d0 & r0 & Hr0 & Hk) Hne]. exists d0, r0. split; [|done].
    rewrite lookup_delete_ne; [done|]. intros <-. congruence.
  - intros (d0 & r0 & [Hne Hr0]%lookup_delete_Some & Hk). split.
    + by exists d0, r0.
    + intros ->. apply Hne. by apply (Inv_shared_address c d d0 r r0).
Qed.

Lemma sweep_fold_NoLeak now c (m : gmap string DomainRecord) :
  Inv c → NoLeak c → m ⊆ records c →
  NoLeak (map_fold (sweepRecord now) (c, []) m).1.
Proof.
  intros HI HN Hsub.
  enough (NoLeak (map_fold (sweepRecord now) (c, []) m).1 ∧
          Inv (map_fold (sweepRecord now) (c, []) m).1 ∧
          ∀ d, m !! d = None →
               records (map_fold (sweepRecord now) (c, []) m).1 !! d
               = records c !! d) as [? _]; [done|].
  revert Hsub. apply (map_fold_weak_ind (λ acc m,
    m ⊆ records c →
    NoLeak acc.1 ∧ Inv acc.1 ∧
    ∀ d, m !! d = None → records acc.1 !! d = records c !! d));
    clear m; [done|].
  intros i x m acc Hi IH Hsub.
  assert (records c !! i = Some x) as Hx.
  { eapply lookup_weaken; [|exact Hsub]. apply lookup_insert_eq. }
  destruct IH as (HNacc & HIacc & Hrest).
  { etrans; [|exact Hsub]. by apply insert_subseteq. }
  assert (records acc.1 !! i = Some x) as Hacc by by rewrite Hrest.
  unfold sweepRecord. destruct (Before (Expires x) now); simpl.
  - split; [by apply NoLeak_releaseRecord|].
    split; [by apply Inv_releaseRecord|].
    intros d [Hd Hne]%lookup_insert_None.
    rewrite lookup_delete_ne by done. by apply Hrest.
  - split; [done|]. split; [done|].
    intros d [Hd Hne]%lookup_insert_None. by apply Hrest.
Qed.

Lemma release_fold_NoLeak c (m : gmap string DomainRecord) :
  Inv c → NoLeak c → m ⊆ records c → NoLeak (map_fold releaseRecord c m).
Proof.
  intros HI HN Hsub.
  enough (NoLeak (map_fold releaseRecord c m) ∧
          Inv (map_fold releaseRecord c m) ∧
          ∀ d, m !! d = None →
               records (map_fold releaseRecord c m) !! d = records c !! d)
    as [? _]; [done|].
  revert Hsub. apply (map_fold_weak_ind (λ acc m,
    m ⊆ records c →
    NoLeak acc ∧ Inv acc ∧
    ∀ d, m !! d = None → records acc !! d = records c !! d));
    clear m; [done|].
  intros i x m acc Hi IH Hsub.
  assert (records c !! i = Some x) as Hx.
  { eapply lookup_weaken; [|exact Hsub]. apply lookup_insert_eq. }
  destruct IH as (HNacc & HIacc & Hrest).
  { etrans; [|exact Hsub]. by apply insert_subseteq. }
  assert (records acc !! i = Some x) as Hacc by by rewrite Hrest.
  split; [by apply NoLeak_releaseRecord|].
  split; [by apply Inv_releaseRecord|].
  intros d [Hd Hne]%lookup_insert_None. simpl.
  rewrite lookup_delete_ne by done. by apply Hrest.
Qed.

(** The pool and the table stay in step: when the outstanding addresses
    are exactly those of the live records, they still are after [Set]
    (also when it fails), [Get], [GetByIP], both sweeps and [Reload]; after
    [Reload] no address is outstanding. *)
Theorem no_address_leak c :
  reachable c → NoLeak c →
  (∀ domain proxy now, NoLeak (Set_ domain proxy now c).1.2) ∧
  (∀ domain now, NoLeak (Get domain now c).2) ∧
  (∀ ip now, NoLeak (GetByIP ip now c).2) ∧
  (∀ now, NoLeak (tick now c).1) ∧
  (∀ ip subnet, NoLeak (Reload ip subnet c).1 ∧
                outstanding (ipPool (Reload ip subnet c).1) = ∅).
Proof.
  intros HI%reachable_Inv HN.
  assert (∀ domain now, NoLeak (get domain now c).2) as Hget.
  { intros domain now. unfold get.
    destruct (records c !! domain) as [r|] eqn:Hr; [|done].
    by apply (NoLeak_updateRecord c domain r). }
  split; [intros; by apply NoLeak_Set|].
  split; [done|]. split; [|split].
  - intros ip now. unfold GetByIP.
    destruct (ip2Domain c !! IP_String ip); [apply Hget|done].
  - intros now. unfold tick.
    destruct (clearExpiredDomain now c) as [c1 l1] eqn:Hsweep.
    destruct (clearExpiredNonProxyDomain now c1) as [c2 l2] eqn:Hnp.
    simpl. replace c2 with (clearExpiredNonProxyDomain now c1).1
      by by rewrite Hnp.
    destruct (clearExpiredNonProxyDomain_hijack now c1) as (Hp & Hr & _).
    apply (NoLeak_ext c1); [done..|].
    replace c1 with (clearExpiredDomain now c).1 by by rewrite Hsweep.
    unfold clearExpiredDomain.
    destruct (Z.of_nat (size (records c)) <=? threshold c); [done|].
    by apply sweep_fold_NoLeak.
  - intros ip subnet.
    assert (NoLeak (Reload ip subnet c).1) as HR.
    { unfold Reload. simpl.
      destruct (clearNonProxy_fold_hijack c (nonProxyDomains c))
        as (Hp & Hr & Hi).
      apply release_fold_NoLeak; [by apply (Inv_ext c)| |done].
      by apply (NoLeak_ext c). }
    split; [done|]. apply set_eq. intros k. rewrite (HR k).
    split; [|by intros ?%not_elem_of_empty].
    intros (d & r & Hr & _). by rewrite Reload_records, lookup_empty in Hr.
Qed.

(** [Reload] empties the table: no record, no reverse entry, no non-proxy
    domain, and every address that was held by a record is released. *)
Theorem Reload_clears ip subnet c :
  reachable c →
  records (Reload ip subnet c).1 = ∅ ∧
  ip2Domain (Reload ip subnet c).1 = ∅ ∧
  nonProxyDomains (Reload ip subnet c).1 = ∅ ∧
  (Reload ip subnet c).2 = [LogReloaded].
Proof.
  intros HI%reachable_Inv.
  split; [apply Reload_records|]. split; [by apply Reload_ip2Domain|].
  split; [apply Reload_nonProxyDomains|done].
Qed.

(** *** The non-proxy set *)

Lemma clearExpiredNonProxyDomain_lookup now c d :
  nonProxyDomains (clearExpiredNonProxyDomain now c).1 !! d =
  match nonProxyDomains c !! d with
  | Some expired => if Before expired now then None else Some expired
  | None => None
  end.
Proof.
  unfold clearExpiredNonProxyDomain.
  enough (∀ m : gmap string Time,
    nonProxyDomains (map_fold (λ domain expired acc,
        if Before expired now
        then (deleteNonProxy domain acc.1,
              acc.2 ++ [LogReleaseNonProxy domain])
        else acc) (c, []) m).1 !! d =
    match m !! d with
    | Some expired =>
        if Before expired now then None else nonProxyDomains c !! d
    | None => nonProxyDomains c !! d
    end) as Hen.
  { rewrite Hen. destruct (nonProxyDomains c !! d) as [e|]; [|done].
    by destruct (Before e now). }
  intros m. apply (map_fold_weak_ind (λ acc m,
    nonProxyDomains acc.1 !! d =
    match m !! d with
    | Some expired =>
        if Before expired now then None else nonProxyDomains c !! d
    | None => nonProxyDomains c !! d
    end)).
  - by rewrite lookup_empty.
  - intros i x m' acc Hi IH. destruct (decide (i = d)) as [->|Hne].
    + rewrite lookup_insert_eq. destruct (Before x now); simpl.
      * by rewrite lookup_delete_eq.
      * by rewrite IH, Hi.
    + rewrite lookup_insert_ne by done.
      destruct (Before x now); simpl; [|done].
      by rewrite lookup_delete_ne.
Qed.

(** The sweep of the non-proxy set keeps exactly the entries that have not
    expired, whatever the size of the set, and leaves the hijack records,
    the reverse index and the pool alone. *)
Theorem clearExpiredNonProxyDomain_spec now c :
  (∀ d, IsNonProxyDomain d (clearExpiredNonProxyDomain now c).1 = true ↔
        ∃ expired, nonProxyDomains c !! d = Some expired ∧ now ≤ expired) ∧
  records (clearExpiredNonProxyDomain now c).1 = records c ∧
  ip2Domain (clearExpiredNonProxyDomain now c).1 = ip2Domain c ∧
  ipPool (clearExpiredNonProxyDomain now c).1 = ipPool c.
Proof.
  destruct (clearExpiredNonProxyDomain_hijack now c) as (Hp & Hr & Hi).
  split; [|done]. intros d. unfold IsNonProxyDomain.
  rewrite bool_decide_eq_true, clearExpiredNonProxyDomain_lookup.
  destruct (nonProxyDomains c !! d) as [e|]; unfold Before.
  - destruct (Z.ltb_spec e now).
    + split; [by intros [? ?]|]. intros (e' & [= <-] & Hle). lia.
    + split; [|by eexists]. intros _. exists e. split; [done|lia].
  - split; [by intros [? ?]|]. by intros (e' & ? & _).
Qed.

(** A domain marked non-proxy at [now0] for [ttl] seconds is non-proxy at
    once, and after a sweep at [now1] it still is exactly when [now1] is not
    past [now0] plus [ttl] seconds. *)
Theorem SetNonProxyDomain_lifetime domain ttl now0 now1 c :
  IsNonProxyDomain domain (SetNonProxyDomain domain ttl now0 c) = true ∧
  (IsNonProxyDomain domain
     (clearExpiredNonProxyDomain now1
        (SetNonProxyDomain domain ttl now0 c)).1 = true
   ↔ now1 ≤ now0 + ttl * Second).
Proof.
  split.
  - unfold IsNonProxyDomain, SetNonProxyDomain. simpl.
    rewrite bool_decide_eq_true, lookup_insert_eq. by eexists.
  - rewrite (proj1 (clearExpiredNonProxyDomain_spec now1 _) domain).
    simpl. rewrite lookup_insert_eq. split.
    + by intros (e & [= <-] & Hle).
    + intros Hle. by eexists.
Qed.

End More.

Section Samples.
#[local] Existing Instance sampleExternals.

Lemma hijackAll_reachable names now c :
  reachable c → reachable (hijackAll names now c).
Proof.
  revert c. induction names as [|name names IH]; intros c Hc; [done|].
  simpl. apply IH. by apply reach_Set.
Qed.

Lemma sampleTable_reachable capacity n : reachable (sampleTable capacity n).
Proof. apply hijackAll_reachable, reach_New. Qed.

Lemma sampleTable_expired capacity n d r :
  records (sampleTable capacity n) !! d = Some r →
  Before (Expires r) afterTTL = true.
Proof.
  unfold sampleTable.
  assert (∀ names c,
    (∀ d r, records c !! d = Some r → Before (Expires r) afterTTL = true) →
    ∀ d r, records (hijackAll names 0 c) !! d = Some r →
           Before (Expires r) afterTTL = true) as Hall.
  { induction names as [|name names IH]; intros c Hc; [done|].
    simpl. apply IH. intros d' r'. unfold Set_.
    destruct (records c !! name) as [r0|] eqn:Hr0; [by apply Hc|].
    destruct (Alloc name (ipPool c)) as [[bytes|] pool]; simpl.
    - rewrite lookup_insert. case_decide; [by intros [= <-]|by apply Hc].
    - by apply Hc. }
  apply Hall. intros d' r'. simpl. by rewrite lookup_empty.
Qed.

Lemma bijection_invariant_witness :
  Bijective (sampleTable 100 3) ∧
  Bijective (clearExpiredDomain afterTTL (sampleTable 100 3)).1.
Proof.
  pose proof (bijection_invariant (sampleTable 100 3)
                (sampleTable_reachable 100 3)) as (Hb & _ & Hsweep & _).
  split; [exact Hb|exact (Hsweep afterTTL)].
Defined.

Lemma Set_idempotent_roundtrip_witness :
  ∃ rec c1 log1,
    Set_ "a.example" "proxy" 0 (sampleTable 100 3) = (Some rec, c1, log1) ∧
    Set_ "a.example" "proxy" 5 c1 = (Some rec, c1, []) ∧
    ∃ rec', (GetByIP (IP rec) 7 c1).1 = Some rec' ∧
            Hostname rec' = "a.example".
Proof.
  destruct (Set_ "a.example" "proxy" 0 (sampleTable 100 3))
    as [[[rec|] c1] log1] eqn:HSet; [|vm_compute in HSet; discriminate HSet].
  exists rec, c1, log1. split; [reflexivity|].
  destruct (Set_idempotent_roundtrip (sampleTable 100 3) "a.example" "proxy"
              0 5 7 rec c1 log1 (sampleTable_reachable 100 3) HSet)
    as (Hagain & _ & _ & Hround).
  split; [exact Hagain|exact Hround].
Defined.

Lemma reaper_threshold_gating_witness :
  clearExpiredDomain afterTTL (sampleTable 100 10) = (sampleTable 100 10, []) ∧
  records (clearExpiredDomain afterTTL (sampleTable 100 11)).1
    !! "host0.example" = None.
Proof.
  pose proof (reaper_threshold_gating (sampleTable 100 10) afterTTL eq_refl)
    as (_ & Hbelow & _).
  pose proof (reaper_threshold_gating (sampleTable 100 11) afterTTL eq_refl)
    as (_ & _ & Habove).
  split.
  - apply Hbelow. vm_compute. lia.
  - assert (11 ≤ size (records (sampleTable 100 11)))%nat as Hsize
      by (vm_compute; lia).
    destruct (Habove Hsize) as [Hevict _].
    destruct (records (sampleTable 100 11) !! "host0.example") as [r|] eqn:Hr.
    + apply (Hevict "host0.example" r Hr).
      by apply (sampleTable_expired 100 11 "host0.example").
    + vm_compute in Hr. discriminate Hr.
Defined.

(** C3, as stated, fails: ten expired records on a pool of capacity 100 do
    not exceed the threshold of 10, and the sweep leaves all ten in place. *)
Lemma reaper_tenth_record_not_evicted : ¬ threshold_gating_as_stated.
Proof.
  intros Hstated.
  destruct (Hstated (sampleTable 100 10) afterTTL eq_refl
              (sampleTable_expired 100 10)) as [_ Hten].
  specialize (Hten eq_refl).
  apply (f_equal size) in Hten. vm_compute in Hten. discriminate Hten.
Qed.

Lemma SetRealIP_stores_last_A_witness :
  RealIP (SetRealIP twoAnswers freshRecord) = Some [x02; x02; x02; x02].
Proof.
  apply (SetRealIP_stores_last_A freshRecord
           [RR_A (mkA (mkHeader "a.example." TypeA ClassINET 300)
                      (Some [x01; x01; x01; x01]))]
           (mkA (mkHeader "a.example." TypeA ClassINET 300)
                (Some [x02; x02; x02; x02])) []).
  - reflexivity.
  - intros a' Ha'. by apply elem_of_nil in Ha'.
Defined.

Lemma NoLeak_New (pool : ListPool) :
  taken pool = ∅ → NoLeak (NewDnsTable pool).
Proof.
  intros Hempty k. simpl. rewrite Hempty. split.
  - by intros ?%not_elem_of_empty.
  - intros (d & r & Hr & _). by rewrite lookup_empty in Hr.
Qed.

Lemma sampleTable_NoLeak capacity n : NoLeak (sampleTable capacity n).
Proof.
  unfold sampleTable.
  assert (∀ names c, NoLeak c → NoLeak (hijackAll names 0 c)) as Hall.
  { induction names as [|name names IH]; intros c Hc; [done|].
    simpl. apply IH. by apply NoLeak_Set. }
  by apply Hall, NoLeak_New.
Qed.

Lemma GetByIP_hit_witness :
  ∃ r, records (sampleTable 100 3) !! "host1.example" = Some r ∧
       Hostname r = "host1.example" ∧
       (GetByIP (Some [x0a; x00; x00; x03]) 5 (sampleTable 100 3)).1
         = Some (Touch 5 r).
Proof.
  destruct (GetByIP_hit (Some [x0a; x00; x00; x03]) 5 (sampleTable 100 3)
              "host1.example" (sampleTable_reachable 100 3))
    as (r & Hr & Hh & _ & Hget).
  - vm_compute. reflexivity.
  - exists r. split; [exact Hr|]. split; [exact Hh|]. by rewrite Hget.
Defined.

Lemma Get_then_sweep_witness :
  ∃ r c', Get "host0.example" (30 * Second) (sampleTable 100 11) = (Some r, c') ∧
          records (clearExpiredDomain (61 * Second) c').1 !! "host0.example"
            = Some r ∧
          records (clearExpiredDomain (91 * Second) c').1 !! "host0.example"
            = None.
Proof.
  destruct (Get "host0.example" (30 * Second) (sampleTable 100 11))
    as [[r|] c'] eqn:HGet; [|vm_compute in HGet; discriminate HGet].
  exists r, c'. split; [reflexivity|].
  split.
  - apply (proj1 (Get_then_sweep "host0.example" (30 * Second) (61 * Second)
                    (sampleTable 100 11) r c' HGet)).
    vm_compute. discriminate.
  - apply (proj2 (Get_then_sweep "host0.example" (30 * Second) (91 * Second)
                    (sampleTable 100 11) r c' HGet)).
    + vm_compute. reflexivity.
    + replace c' with (Get "host0.example" (30 * Second)
                           (sampleTable 100 11)).2
        by (rewrite HGet; reflexivity).
      vm_compute. reflexivity.
Defined.

Lemma no_address_leak_witness :
  NoLeak (tick afterTTL (sampleTable 100 11)).1 ∧
  outstanding (ipPool (Reload None (None, None) (sampleTable 100 11)).1) = ∅.
Proof.
  destruct (no_address_leak (sampleTable 100 11)
              (sampleTable_reachable 100 11) (sampleTable_NoLeak 100 11))
    as (_ & _ & _ & Htick & Hreload).
  split; [exact (Htick afterTTL)|exact (proj2 (Hreload None (None, None)))].
Defined.

Lemma Reload_clears_witness :
  records (Reload None (None, None) (sampleTable 100 3)).1 = ∅ ∧
  ip2Domain (Reload None (None, None) (sampleTable 100 3)).1 = ∅.
Proof.
  destruct (Reload_clears None (None, None) (sampleTable 100 3)
              (sampleTable_reachable 100 3)) as (Hr & Hi & _).
  split; [exact Hr|exact Hi].
Defined.

End Samples.
End DNSTheory.

(** * The TCP tunnel: theorems *)

Module TunnelTheory.
Import DNS Tunnel.

(** ** Close *)

Lemma Close_done reason t :
  closeOne t = true → Close reason t = Returned (emit (EvCallClose reason) t).
Proof. intros Hdone. unfold Close. simpl. by rewrite Hdone. Qed.

Lemma Close_first reason t :
  closeOne t = false → ctx t ≠ None →
  Close reason t =
    Returned (mkTunnel StatusClosed StatusClosed (remoteAddr t) (Some true) true
                (trace t ++ EvCallClose reason :: teardown reason)).
Proof.
  intros Hfirst Hctx. unfold Close. simpl. rewrite Hfirst.
  destruct (ctx t) as [d|] eqn:Hd; [|done].
  destruct reason as [e|]; simpl; rewrite ?Hd; unfold emit, setCloseOne; simpl;
    by rewrite <- ?app_assoc.
Qed.

Lemma CloseAll_done reasons t :
  closeOne t = true →
  CloseAll reasons t =
    Returned (mkTunnel (localEndpointStatus t) (remoteStatus t) (remoteAddr t)
                (ctx t) true (trace t ++ (EvCallClose <$> reasons))).
Proof.
  revert t. induction reasons as [|reason reasons IH]; intros t Hdone; simpl.
  - rewrite app_nil_r. destruct t. simpl in *. by subst.
  - rewrite (Close_done _ _ Hdone), IH by done. simpl.
    by rewrite <- app_assoc.
Qed.

Lemma filter_calls (Q : Event → Prop) `{!∀ e, Decision (Q e)}
    (reasons : list (option error)) :
  (∀ reason, ¬ Q (EvCallClose reason)) →
  filter Q (EvCallClose <$> reasons) = [].
Proof.
  intros Hno. induction reasons as [|reason reasons IH]; [done|].
  rewrite fmap_cons, filter_cons_False; [done|apply Hno].
Qed.

(** On a tunnel that [Run] has started and that was never closed,
    any number N >= 1 of invocations of [Close], with any reasons, all
    return; together they close the local endpoint once and the remote
    connection once and log at most one reason; every invocation after the
    first adds its own call mark to the trace and changes nothing else. *)
Theorem Close_once t reason reasons :
  ctx t ≠ None → closeOne t = false →
  ∃ t1 t' new,
    Close reason t = Returned t1 ∧
    CloseAll (reason :: reasons) t = Returned t' ∧
    trace t' = trace t ++ new ∧
    occurrences EvLocalEndpointClose new = 1%nat ∧
    occurrences EvRemoteConnClose new = 1%nat ∧
    (length (filter isLogClosed new) ≤ 1)%nat ∧
    t' = mkTunnel (localEndpointStatus t1) (remoteStatus t1) (remoteAddr t1)
           (ctx t1) (closeOne t1) (trace t1 ++ (EvCallClose <$> reasons)).
Proof.
  intros Hctx Hfirst.
  eexists _, _, (EvCallClose reason :: teardown reason
                 ++ (EvCallClose <$> reasons)).
  split; [by apply Close_first|].
  simpl. rewrite (Close_first _ _ Hfirst Hctx).
  rewrite CloseAll_done by done. simpl.
  split; [done|]. split; [by rewrite <- app_assoc|].
  unfold occurrences.
  split; [|split; [|split]].
  - rewrite filter_cons_False by done.
    rewrite filter_app, filter_calls by done.
    by destruct reason.
  - rewrite filter_cons_False by done.
    rewrite filter_app, filter_calls by done.
    by destruct reason.
  - rewrite filter_cons_False by (simpl; tauto).
    rewrite filter_app, filter_calls by (simpl; tauto).
    destruct reason; simpl; lia.
  - by rewrite <- app_assoc.
Qed.

Lemma Close_once_witness :
  ∃ t',
    CloseAll [Some "write failed"; None; Some "late"]
             (setCtx (Some false) (newTunnel "example.org:443"))
      = Returned t' ∧
    occurrences EvLocalEndpointClose (trace t') = 1%nat ∧
    occurrences EvRemoteConnClose (trace t') = 1%nat.
Proof.
  destruct (Close_once (setCtx (Some false) (newTunnel "example.org:443"))
              (Some "write failed") [None; Some "late"])
    as (t1 & t' & new & _ & Hall & Htrace & Hlocal & Hremote & _).
  - discriminate.
  - reflexivity.
  - exists t'. rewrite Htrace. simpl. by repeat split.
Defined.

(** C5.  [Close] does not run its teardown exactly once on every tunnel.
    On the tunnel as [NewTCP2Socks] returns it, before [Run] has created the
    context, the first [Close] sets both statuses and panics on the nil
    cancel function; the [Once] is done all the same, so every further
    invocation returns at once.  After any number of invocations, with any
    reasons, neither the local endpoint nor the remote connection has been
    closed. *)
Theorem Close_on_new_tunnel addr reason reasons :
  ∃ t' t'',
    Close reason (newTunnel addr) = Panicked t' ∧
    closeOne t' = true ∧
    CloseAll reasons t' = Returned t'' ∧
    occurrences EvLocalEndpointClose (trace t'') = 0%nat ∧
    occurrences EvRemoteConnClose (trace t'') = 0%nat.
Proof.
  unfold Close, newTunnel. simpl.
  destruct reason as [e|]; simpl; eexists _, _;
    (split; [reflexivity|]); (split; [reflexivity|]);
    (split; [by apply CloseAll_done|]); simpl; unfold occurrences;
    rewrite !filter_cons_False, !filter_calls by done; done.
Qed.

(** ** The remote-to-local pump *)

Section WithUtil.
Context `{Util}.

(** The trace of a [Close] on a started tunnel. *)
Lemma Close_trace reason t :
  ctx t ≠ None →
  ∃ t', Close reason t = Returned t' ∧
        closeOne t' = true ∧
        trace t' = trace t ++ EvCallClose reason ::
                   (if closeOne t then [] else teardown reason).
Proof.
  intros Hctx. destruct (closeOne t) eqn:Hdone.
  - eexists. split; [by apply Close_done|]. by split.
  - eexists. split; [by apply Close_first|]. by split.
Qed.

(** C7.  In [readFromRemoteWriteToLocal], a remote read that fails with a
    timeout, a connection reset or an end of stream calls [Close(nil)] and
    logs nothing; a read that fails with any other error logs the error and
    calls [Close] with it, which logs it as the reason when this is the
    first [Close] of the tunnel. *)
Theorem remote_read_error_close t r reads writes err :
  ctx t = Some false → rerr r = Some err →
  ∃ t', readFromRemoteWriteToLocal (r :: reads) writes t = Returned t' ∧
    (IsTimeout err || IsConnectionReset err || IsEOF err = true →
     trace t' = trace t ++
       [EvSetReadDeadline (Some TCPTimeout); EvCallClose None] ++
       (if closeOne t then []
        else [EvCtxCancel; EvLocalEndpointClose; EvRemoteConnClose])) ∧
    (IsTimeout err || IsConnectionReset err || IsEOF err = false →
     trace t' = trace t ++
       [EvSetReadDeadline (Some TCPTimeout); EvLogPrintln err;
        EvCallClose (Some err)] ++
       (if closeOne t then []
        else [EvLogClosed err; EvCtxCancel; EvLocalEndpointClose;
              EvRemoteConnClose])).
Proof.
  intros Hctx Herr. simpl. rewrite Hctx, Herr.
  destruct (IsTimeout err || IsConnectionReset err || IsEOF err) eqn:Hclass.
  - replace (negb (IsTimeout err) && negb (IsConnectionReset err)
             && negb (IsEOF err)) with false
      by (destruct (IsTimeout err), (IsConnectionReset err), (IsEOF err);
          done).
    destruct (Close_trace None (emit (EvSetReadDeadline (Some TCPTimeout)) t))
      as (t' & -> & _ & Htrace); [simpl; by rewrite Hctx|].
    exists t'. split; [done|]. split; [|done]. intros _.
    rewrite Htrace. simpl. by rewrite <- app_assoc.
  - replace (negb (IsTimeout err) && negb (IsConnectionReset err)
             && negb (IsEOF err)) with true
      by (destruct (IsTimeout err), (IsConnectionReset err), (IsEOF err);
          done).
    destruct (Close_trace (Some err)
                (emit (EvLogPrintln err)
                   (emit (EvSetReadDeadline (Some TCPTimeout)) t)))
      as (t' & -> & _ & Htrace); [simpl; by rewrite Hctx|].
    exists t'. split; [done|]. split; [done|]. intros _.
    rewrite Htrace. simpl. by rewrite <- !app_assoc.
Qed.

(** C10.  A remote read that returns zero bytes and no error ends the
    remote-to-local pump: the pump returns having cleared the deadline,
    without a write to the local endpoint and without a call of [Close].
    The tunnel is then torn down by the [Close(nil)] at the end of [Run],
    once both pumps have ended. *)
Theorem remote_read_zero_bytes t r reads writes :
  ctx t = Some false → rerr r = None → rdata r = [] →
  readFromRemoteWriteToLocal (r :: reads) writes t =
    Returned (emit (EvSetReadDeadline None)
                (emit (EvSetReadDeadline (Some TCPTimeout)) t)) ∧
  ∃ cfg, exec quietSchedule quietRun = Some cfg ∧
         pc cfg = RunDone ∧
         trace (tunnel cfg) =
           [EvSetReadDeadline (Some TCPTimeout); EvSetReadDeadline None;
            EvEventRegister; EvEventUnregister;
            EvCallClose None;
            EvCtxCancel; EvLocalEndpointClose; EvRemoteConnClose].
Proof.
  intros Hctx Herr Hdata. split.
  - simpl. by rewrite Hctx, Herr, Hdata.
  - eexists. split; [vm_compute; reflexivity|]. split; reflexivity.
Qed.

(** ** Run *)

(** C8.  The statuses are not monotonic.  [Run] starts the pumps before it
    sets the statuses: when the remote pump's first read fails at once,
    [Close] sets both statuses to closed, and the next two statements of
    [Run] set them back to proxying on a tunnel that is closed. *)
Theorem Run_resets_closed_status :
  ∃ cfg1 cfg2,
    exec [ActRun; ActRun; ActRun; ActRemotePump] resetRun = Some cfg1 ∧
    RemoteStatus (tunnel cfg1) = StatusClosed ∧
    LocalEndpointStatus (tunnel cfg1) = StatusClosed ∧
    exec [ActRun; ActRun] cfg1 = Some cfg2 ∧
    RemoteStatus (tunnel cfg2) = StatusProxying ∧
    LocalEndpointStatus (tunnel cfg2) = StatusProxying ∧
    closeOne (tunnel cfg2) = true.
Proof.
  destruct H as [isTimeout isReset isEOF isPipe isClosed text seconds].
  destruct (isTimeout "connection reset by peer") eqn:E1,
           (isReset "connection reset by peer") eqn:E2,
           (isEOF "connection reset by peer") eqn:E3;
    eexists _, _;
    (split; [vm_compute; rewrite ?E1, ?E2, ?E3; vm_compute; reflexivity|]);
    vm_compute; by repeat split.
Qed.

End WithUtil.

(** ** Invariants of the pumps and of Run *)

Lemma occurrences_app e l1 l2 :
  occurrences e (l1 ++ l2) = (occurrences e l1 + occurrences e l2)%nat.
Proof. unfold occurrences. by rewrite filter_app, length_app. Qed.

Lemma occurrences_pumpEvent e e' :
  pumpEvent e' = true → pumpEvent e = false → occurrences e [e'] = 0%nat.
Proof.
  intros He' He. unfold occurrences.
  rewrite filter_cons_False; [done|]. intros <-. congruence.
Qed.

(** A predicate kept by the events of the pumps and by [Close] is kept by
    the loops of both pumps. *)
Section PumpInvariant.
Context `{Util}.
Variable Q : TCPTunnel → Prop.
Hypothesis Q_emit : ∀ e t, pumpEvent e = true → Q t → Q (emit e t).
Hypothesis Q_Close : ∀ reason t, Q t → OutcomeInv Q (Close reason t).
Hypothesis Q_ctx : ∀ t, Q t → ctx t ≠ None.

Lemma writeAllToLocal_keeps writes chunk t :
  Q t → FlowInv Q (writeAllToLocal writes chunk t).
Proof.
  revert chunk t. induction writes as [|w writes IH]; intros chunk t HQ; simpl.
  - by destruct (length chunk <=? 0)%nat.
  - destruct (length chunk <=? 0)%nat; [done|].
    assert (Q (emit (EvLocalWrite chunk) t)) as HQ' by by apply Q_emit.
    destruct (werr w) as [err|].
    + destruct (bool_decide (err = ErrWouldBlock)
                && (wm w <? length chunk)%nat); [by apply IH|].
      destruct (bool_decide (err = ErrClosedForSend)
                || bool_decide (err = ErrClosedForReceive)); [done|].
      destruct (IsClosed err); simpl; [by apply Q_Close|].
      by apply Q_Close, Q_emit.
    + destruct (wm w <? length chunk)%nat; [by apply IH|done].
Qed.

Lemma readFromRemoteWriteToLocal_keeps reads writes t :
  Q t → OutcomeInv Q (readFromRemoteWriteToLocal reads writes t).
Proof.
  revert writes t. induction reads as [|r reads IH]; intros writes t HQ;
    pose proof (Q_ctx t HQ) as Hctx;
    simpl; destruct (ctx t) as [[|]|] eqn:Hc; try done.
  - by apply Q_emit.
  - assert (Q (emit (EvSetReadDeadline (Some TCPTimeout)) t)) as HQ1
      by by apply Q_emit.
    destruct (rerr r) as [err|].
    + destruct (negb (IsTimeout err) && negb (IsConnectionReset err)
                && negb (IsEOF err)); [|by apply Q_Close].
      by apply Q_Close, Q_emit.
    + match goal with |- context [if ?b then _ else _] => destruct b end;
        [|by apply Q_emit].
      match goal with
      | |- context [writeAllToLocal ?ws ?ch ?t0] =>
          pose proof (writeAllToLocal_keeps ws ch t0) as Hflow;
          destruct (writeAllToLocal ws ch t0) as [writes' t'|o]
      end.
      * apply IH, Hflow. by apply Q_emit.
      * apply Hflow. by apply Q_emit.
Qed.

Lemma writeAllToRemote_keeps writes v t :
  Q t → FlowInv Q (writeAllToRemote writes v t).
Proof.
  revert v t. induction writes as [|w writes IH]; intros v t HQ; simpl.
  - by destruct (length v <=? 0)%nat.
  - destruct (length v <=? 0)%nat; [done|].
    assert (Q (emit (EvRemoteWrite v) t)) as HQ' by by apply Q_emit.
    destruct (rwerr w) as [err|].
    + destruct (IsBrokenPipe err || IsEOF err); simpl; [by apply Q_Close|].
      by apply Q_Close, Q_emit.
    + destruct (rn w <? length v)%nat; [by apply IH|done].
Qed.

Lemma readFromLocalLoop_keeps reads writes t :
  Q t → OutcomeInv Q (readFromLocalLoop reads writes t).
Proof.
  revert writes t. induction reads as [|r reads IH]; intros writes t HQ;
    pose proof (Q_ctx t HQ) as Hctx;
    simpl; destruct (ctx t) as [[|]|] eqn:Hc; try done.
  destruct (lerr r) as [err|].
  - destruct (bool_decide (err = ErrWouldBlock)).
    { destruct (notified r); [by apply IH|done]. }
    destruct (bool_decide (err = ErrClosedForSend)
              || bool_decide (err = ErrClosedForReceive)); [done|].
    destruct (IsClosed err); [by apply Q_Close|].
    by apply Q_Close, Q_emit.
  - match goal with |- context [if ?b then _ else _] => destruct b end;
      [|done].
    pose proof (writeAllToRemote_keeps writes (lv r) t HQ) as Hflow.
    destruct (writeAllToRemote writes (lv r) t) as [writes' t'|o];
      [by apply IH|done].
Qed.

Lemma readFromLocalWriteToRemote_keeps reads writes t :
  Q t → OutcomeInv Q (readFromLocalWriteToRemote reads writes t).
Proof.
  intros HQ. unfold readFromLocalWriteToRemote.
  pose proof (readFromLocalLoop_keeps reads writes (emit EvEventRegister t))
    as Hloop.
  destruct (readFromLocalLoop reads writes (emit EvEventRegister t)) as [t'|t'|t'];
    simpl in *.
  - by apply Q_emit, Hloop, Q_emit.
  - by apply Hloop, Q_emit.
  - by apply Hloop, Q_emit.
Qed.

End PumpInvariant.

Lemma TeardownInv_emit e t :
  pumpEvent e = true → TeardownInv t → TeardownInv (emit e t).
Proof.
  intros He [Hctx Hl Hr Hc]. split; simpl; try done.
  - by rewrite occurrences_app, (occurrences_pumpEvent _ e), Nat.add_0_r.
  - by rewrite occurrences_app, (occurrences_pumpEvent _ e), Nat.add_0_r.
Qed.

Lemma TeardownInv_Close reason t :
  TeardownInv t →
  ∃ t', Close reason t = Returned t' ∧ TeardownInv t' ∧ closeOne t' = true ∧
        ClosedKept t t'.
Proof.
  intros [Hctx Hl Hr Hc]. destruct (closeOne t) eqn:Hdone.
  - eexists. split; [by apply Close_done|]. split; [|done].
    split; simpl; rewrite ?Hdone; try done.
    + by rewrite occurrences_app, Hl.
    + by rewrite occurrences_app, Hr.
  - eexists. split; [by apply Close_first|]. split; [|done].
    split; simpl; try done.
    + rewrite occurrences_app, Hl. by destruct reason.
    + rewrite occurrences_app, Hr. by destruct reason.
Qed.

Lemma TeardownInv_Close_outcome reason t :
  TeardownInv t → OutcomeInv TeardownInv (Close reason t).
Proof.
  intros HI. by destruct (TeardownInv_Close reason t HI) as (t' & -> & ? & _).
Qed.

(** Kept by the pumps: the teardown invariant, a done [Once], and closed
    statuses, relative to a tunnel [t0]. *)
Definition Kept (t0 t : TCPTunnel) : Prop :=
  TeardownInv t ∧ ClosedKept t0 t ∧ (closeOne t0 = true → closeOne t = true).

Lemma Kept_refl t : TeardownInv t → Kept t t.
Proof. by intros HI. Qed.

Lemma Kept_emit t0 e t : pumpEvent e = true → Kept t0 t → Kept t0 (emit e t).
Proof. intros He (HI & HK & Hd). split; [by apply TeardownInv_emit|done]. Qed.

Lemma Kept_Close t0 reason t :
  Kept t0 t → OutcomeInv (Kept t0) (Close reason t).
Proof.
  intros (HI & [HKr HKl] & Hd).
  destruct (TeardownInv_Close reason t HI) as (t' & -> & HI' & Hdone & [Hr Hl]).
  simpl. split; [done|]. split; [|done]. split; auto.
Qed.

Lemma Kept_ctx t0 t : Kept t0 t → ctx t ≠ None.
Proof. intros (HI & _). apply HI. Qed.

Section RunInvariant.
Context `{Util}.

Lemma stepRun_RunInv cfg cfg' :
  RunInv cfg → stepRun cfg = Some cfg' → RunInv cfg'.
Proof.
  unfold stepRun, RunInv. intros HI Hstep.
  destruct (pc cfg) eqn:Hpc.
  - injection Hstep as <-. simpl.
    destruct HI as (Hctx & Hdone & Htrace & _).
    split; simpl; rewrite ?Htrace, ?Hdone; done.
  - injection Hstep as <-. by simpl.
  - injection Hstep as <-. by simpl.
  - injection Hstep as <-. simpl. by destruct HI.
  - injection Hstep as <-. simpl. by destruct HI.
  - destruct (remotePump cfg) eqn:Hr; [done..|].
    destruct (localPump cfg) eqn:Hl; [done..|].
    injection Hstep as <-. simpl. by rewrite Hr, Hl.
  - destruct HI as (HT & Hr & Hl).
    destruct (TeardownInv_Close None _ HT) as (t' & Hclose & HT' & Hd & _).
    rewrite Hclose in Hstep. injection Hstep as <-. by simpl.
  - done.
Qed.

Lemma pump_RunInv cfg t' r l :
  Kept (tunnel cfg) t' →
  pc cfg ≠ RunCreateCtx → pc cfg ≠ RunClose → pc cfg ≠ RunDone →
  RunInv (withPumps r l (withTunnel t' cfg)).
Proof.
  unfold RunInv. simpl. intros (HT & _) Hs Hc Hd.
  by destruct (pc cfg).
Qed.

Lemma step_RunInv a cfg cfg' :
  RunInv cfg → step a cfg = Some cfg' → RunInv cfg'.
Proof.
  intros HI Hstep. destruct a as [| | |reason]; simpl in Hstep.
  - by apply (stepRun_RunInv cfg).
  - destruct (remotePump cfg) eqn:Hr; try done.
    pose proof (readFromRemoteWriteToLocal_keeps (Kept (tunnel cfg))
                  (Kept_emit _) (Kept_Close _) (Kept_ctx _)
                  (remoteReads cfg) (localWrites cfg) (tunnel cfg)) as Hpump.
    destruct (readFromRemoteWriteToLocal _ _ _) as [t'| |]; [|done..].
    injection Hstep as <-.
    assert (pc cfg ≠ RunCreateCtx) as Hstart.
    { intros Hpc. unfold RunInv in HI. rewrite Hpc in HI.
      destruct HI as (_ & _ & _ & Hr' & _). congruence. }
    assert (TeardownInv (tunnel cfg)) as HT.
    { unfold RunInv in HI. destruct (pc cfg); try done; by destruct HI. }
    apply pump_RunInv; [by apply Hpump, Kept_refl|done|..].
    + intros Hpc. unfold RunInv in HI. rewrite Hpc in HI.
      destruct HI as (_ & Hr' & _). congruence.
    + intros Hpc. unfold RunInv in HI. rewrite Hpc in HI.
      destruct HI as (_ & _ & Hr' & _). congruence.
  - destruct (localPump cfg) eqn:Hl; try done.
    pose proof (readFromLocalWriteToRemote_keeps (Kept (tunnel cfg))
                  (Kept_emit _) (Kept_Close _) (Kept_ctx _)
                  (localReads cfg) (remoteWrites cfg) (tunnel cfg)) as Hpump.
    destruct (readFromLocalWriteToRemote _ _ _) as [t'| |]; [|done..].
    injection Hstep as <-.
    assert (pc cfg ≠ RunCreateCtx) as Hstart.
    { intros Hpc. unfold RunInv in HI. rewrite Hpc in HI.
      destruct HI as (_ & _ & _ & _ & Hl'). congruence. }
    assert (TeardownInv (tunnel cfg)) as HT.
    { unfold RunInv in HI. destruct (pc cfg); try done; by destruct HI. }
    apply pump_RunInv; [by apply Hpump, Kept_refl|done|..].
    + intros Hpc. unfold RunInv in HI. rewrite Hpc in HI.
      destruct HI as (_ & _ & Hl'). congruence.
    + intros Hpc. unfold RunInv in HI. rewrite Hpc in HI.
      destruct HI as (_ & _ & _ & Hl'). congruence.
  - unfold RunInv in *. destruct (pc cfg) eqn:Hpc.
    + destruct HI as (Hctx & Hdone & _).
      unfold Close in Hstep. simpl in Hstep. rewrite Hdone in Hstep.
      destruct reason; simpl in Hstep; by rewrite Hctx in Hstep.
    + destruct (TeardownInv_Close reason _ HI) as (t' & Hc & HT' & _).
      rewrite Hc in Hstep. injection Hstep as <-. simpl. by rewrite Hpc.
    + destruct (TeardownInv_Close reason _ HI) as (t' & Hc & HT' & _).
      rewrite Hc in Hstep. injection Hstep as <-. simpl. by rewrite Hpc.
    + destruct (TeardownInv_Close reason _ HI) as (t' & Hc & HT' & _).
      rewrite Hc in Hstep. injection Hstep as <-. simpl. by rewrite Hpc.
    + destruct (TeardownInv_Close reason _ HI) as (t' & Hc & HT' & _).
      rewrite Hc in Hstep. injection Hstep as <-. simpl. by rewrite Hpc.
    + destruct (TeardownInv_Close reason _ HI) as (t' & Hc & HT' & _).
      rewrite Hc in Hstep. injection Hstep as <-. simpl. by rewrite Hpc.
    + destruct HI as (HT & Hr & Hl).
      destruct (TeardownInv_Close reason _ HT) as (t' & Hc & HT' & _).
      rewrite Hc in Hstep. injection Hstep as <-. simpl. by rewrite Hpc.
    + destruct HI as (HT & Hd & Hr & Hl).
      destruct (TeardownInv_Close reason _ HT) as (t' & Hc & HT' & Hd' & _).
      rewrite Hc in Hstep. injection Hstep as <-. simpl. by rewrite Hpc.
Qed.

Lemma exec_RunInv schedule cfg cfg' :
  RunInv cfg → exec schedule cfg = Some cfg' → RunInv cfg'.
Proof.
  revert cfg. induction schedule as [|a schedule IH]; intros cfg HI; simpl.
  - by intros [= <-].
  - destruct (step a cfg) as [cfg1|] eqn:Hstep; [|done].
    apply IH. by apply (step_RunInv a cfg).
Qed.

Lemma RunInv_start addr rr lw lr rw : RunInv (startConfig addr rr lw lr rw).
Proof. by unfold RunInv. Qed.

Lemma ClosedKept_trans t1 t2 t3 :
  ClosedKept t1 t2 → ClosedKept t2 t3 → ClosedKept t1 t3.
Proof. intros [? ?] [? ?]. split; auto. Qed.

Lemma step_ClosedKept a cfg cfg' :
  RunInv cfg → statusesSet (pc cfg) = true → step a cfg = Some cfg' →
  statusesSet (pc cfg') = true ∧ ClosedKept (tunnel cfg) (tunnel cfg').
Proof.
  intros HI Hset Hstep.
  assert (TeardownInv (tunnel cfg)) as HT.
  { unfold RunInv in HI. destruct (pc cfg); try done; by destruct HI. }
  destruct a as [| | |reason]; simpl in Hstep.
  - unfold stepRun in Hstep. destruct (pc cfg) eqn:Hpc; try done.
    + destruct (remotePump cfg); [done..|].
      destruct (localPump cfg); [done..|].
      injection Hstep as <-. by simpl.
    + destruct (TeardownInv_Close None _ HT) as (t' & Hc & _ & _ & HK).
      rewrite Hc in Hstep. injection Hstep as <-. by simpl.
  - destruct (remotePump cfg); try done.
    pose proof (readFromRemoteWriteToLocal_keeps (Kept (tunnel cfg))
                  (Kept_emit _) (Kept_Close _) (Kept_ctx _)
                  (remoteReads cfg) (localWrites cfg) (tunnel cfg)
                  (Kept_refl _ HT)) as Hpump.
    destruct (readFromRemoteWriteToLocal _ _ _) as [t'| |]; [|done..].
    injection Hstep as <-. simpl. split; [done|]. apply Hpump.
  - destruct (localPump cfg); try done.
    pose proof (readFromLocalWriteToRemote_keeps (Kept (tunnel cfg))
                  (Kept_emit _) (Kept_Close _) (Kept_ctx _)
                  (localReads cfg) (remoteWrites cfg) (tunnel cfg)
                  (Kept_refl _ HT)) as Hpump.
    destruct (readFromLocalWriteToRemote _ _ _) as [t'| |]; [|done..].
    injection Hstep as <-. simpl. split; [done|]. apply Hpump.
  - destruct (TeardownInv_Close reason _ HT) as (t' & Hc & _ & _ & HK).
    rewrite Hc in Hstep. injection Hstep as <-. by simpl.
Qed.

(** However the pumps, other callers of [Close] and [Run] interleave, the
    local endpoint and the remote connection are closed at most once, and
    when [Run] has returned each has been closed exactly once and the
    context is cancelled. *)
Theorem Run_teardown_once addr rr lw lr rw schedule cfg :
  exec schedule (startConfig addr rr lw lr rw) = Some cfg →
  (occurrences EvLocalEndpointClose (trace (tunnel cfg)) ≤ 1)%nat ∧
  (occurrences EvRemoteConnClose (trace (tunnel cfg)) ≤ 1)%nat ∧
  (pc cfg = RunDone →
   occurrences EvLocalEndpointClose (trace (tunnel cfg)) = 1%nat ∧
   occurrences EvRemoteConnClose (trace (tunnel cfg)) = 1%nat ∧
   ctx (tunnel cfg) = Some true).
Proof.
  intros Hexec.
  pose proof (exec_RunInv _ _ _ (RunInv_start addr rr lw lr rw) Hexec) as HI.
  unfold RunInv in HI. destruct (pc cfg) eqn:Hpc.
  - destruct HI as (_ & _ & -> & _). unfold occurrences. simpl.
    split; [lia|]. split; [lia|done].
  - destruct HI as [_ Hl Hr _]. rewrite Hl, Hr.
    split; [by destruct (closeOne _); lia|].
    split; [by destruct (closeOne _); lia|done].
  - destruct HI as [_ Hl Hr _]. rewrite Hl, Hr.
    split; [by destruct (closeOne _); lia|].
    split; [by destruct (closeOne _); lia|done].
  - destruct HI as [_ Hl Hr _]. rewrite Hl, Hr.
    split; [by destruct (closeOne _); lia|].
    split; [by destruct (closeOne _); lia|done].
  - destruct HI as [_ Hl Hr _]. rewrite Hl, Hr.
    split; [by destruct (closeOne _); lia|].
    split; [by destruct (closeOne _); lia|done].
  - destruct HI as [_ Hl Hr _]. rewrite Hl, Hr.
    split; [by destruct (closeOne _); lia|].
    split; [by destruct (closeOne _); lia|done].
  - destruct HI as ([_ Hl Hr _] & _). rewrite Hl, Hr.
    split; [by destruct (closeOne _); lia|].
    split; [by destruct (closeOne _); lia|done].
  - destruct HI as ([_ Hl Hr Hc] & Hd & _). rewrite Hl, Hr, Hd.
    split; [lia|]. split; [lia|]. intros _. split; [done|]. split; [done|].
    by apply Hc.
Qed.

(** Once [Run] has set both statuses, a status that is closed stays closed:
    no later step of [Run], of a pump or of a caller of [Close] changes
    it. *)
Theorem closed_is_final_once_set addr rr lw lr rw schedule1 schedule2 cfg cfg' :
  exec schedule1 (startConfig addr rr lw lr rw) = Some cfg →
  statusesSet (pc cfg) = true →
  exec schedule2 cfg = Some cfg' →
  (RemoteStatus (tunnel cfg) = StatusClosed →
   RemoteStatus (tunnel cfg') = StatusClosed) ∧
  (LocalEndpointStatus (tunnel cfg) = StatusClosed →
   LocalEndpointStatus (tunnel cfg') = StatusClosed).
Proof.
  intros Hexec1 Hset Hexec2.
  pose proof (exec_RunInv _ _ _ (RunInv_start addr rr lw lr rw) Hexec1) as HI.
  clear Hexec1. revert cfg HI Hset Hexec2.
  induction schedule2 as [|a schedule2 IH]; intros cfg HI Hset; simpl.
  - by intros [= <-].
  - destruct (step a cfg) as [cfg1|] eqn:Hstep; [|done]. intros Hexec2.
    destruct (step_ClosedKept a cfg cfg1 HI Hset Hstep) as [Hset1 HK].
    apply (ClosedKept_trans _ (tunnel cfg1)); [done|].
    apply IH; [by apply (step_RunInv a cfg)|done..].
Qed.

End RunInvariant.

(** ** Further properties of Close and of the pumps *)

(** On a tunnel that [Run] has not started, [Close] panics on the nil
    cancel function after it has set the statuses; the [Once] is done all
    the same, so every later [Close] returns at once and neither end is
    ever closed. *)
Theorem Close_before_Run reason reasons t :
  ctx t = None → closeOne t = false →
  ∃ t', Close reason t = Panicked t' ∧
        closeOne t' = true ∧
        LocalEndpointStatus t' = StatusClosed ∧
        RemoteStatus t' = StatusClosed ∧
        trace t' = trace t ++ EvCallClose reason ::
                   match reason with Some e => [EvLogClosed e] | None => [] end ∧
        CloseAll reasons t' = Returned (emitAll (EvCallClose <$> reasons) t').
Proof.
  intros Hctx Hfirst. unfold Close. simpl. rewrite Hfirst.
  destruct reason as [e|]; simpl; rewrite Hctx; eexists;
    (split; [reflexivity|]); simpl;
    rewrite CloseAll_done by done; simpl;
    (split; [done|]); (split; [done|]); (split; [done|]);
    (split; [by rewrite <- ?app_assoc|]);
    unfold emitAll; simpl; by rewrite <- ?app_assoc.
Qed.

Section MorePumps.
Context `{Util}.

(** After the first [Close] of a started tunnel the context is cancelled:
    a pump that comes to the head of its loop, or starts only now, returns
    without a read, a write or a log line. *)
Theorem pumps_stop_after_Close reason t :
  ctx t ≠ None → closeOne t = false →
  ∃ t', Close reason t = Returned t' ∧
        (∀ reads writes,
           readFromRemoteWriteToLocal reads writes t' = Returned t') ∧
        (∀ reads writes,
           readFromLocalWriteToRemote reads writes t' =
           Returned (emitAll [EvEventRegister; EvEventUnregister] t')).
Proof.
  intros Hctx Hfirst. eexists. split; [by apply Close_first|]. split.
  - intros reads writes. by destruct reads.
  - intros reads writes. unfold readFromLocalWriteToRemote.
    destruct reads; simpl; unfold emitAll, emit; simpl;
      by rewrite <- !app_assoc.
Qed.

(** What [readFromLocalWriteToRemote] does on a failed local read that is
    not a would-block: closed-for-send and closed-for-receive end the pump
    without a [Close]; an error that [util.IsClosed] accepts calls
    [Close(nil)]; any other error is logged and given to [Close] with the
    prefix of the pump. *)
Theorem local_read_error_close t r reads writes err :
  ctx t = Some false → lerr r = Some err → err ≠ ErrWouldBlock →
  ∃ t', readFromLocalWriteToRemote (r :: reads) writes t = Returned t' ∧
    trace t' = trace t ++ [EvEventRegister] ++
      (if bool_decide (err = ErrClosedForSend)
          || bool_decide (err = ErrClosedForReceive)
       then []
       else if IsClosed err
       then EvCallClose None :: (if closeOne t then [] else teardown None)
       else
         let reason := "read from local failed, " +:+ tcpip_String err in
         [EvLogPrintln (tcpip_String err); EvCallClose (Some reason)] ++
         (if closeOne t then [] else teardown (Some reason)))
      ++ [EvEventUnregister].
Proof.
  intros Hctx Herr Hne. unfold readFromLocalWriteToRemote. simpl.
  rewrite Hctx, Herr. rewrite (bool_decide_eq_false_2 _ Hne).
  destruct (bool_decide (err = ErrClosedForSend)
            || bool_decide (err = ErrClosedForReceive)).
  { eexists. split; [done|]. simpl. by rewrite <- app_assoc. }
  destruct (IsClosed err).
  - destruct (Close_trace None (emit EvEventRegister t))
      as (t' & -> & _ & Htrace); [simpl; by rewrite Hctx|].
    eexists. split; [done|]. simpl. rewrite Htrace. simpl.
    by rewrite <- !app_assoc.
  - destruct (Close_trace
                (Some ("read from local failed, " +:+ tcpip_String err))
                (emit (EvLogPrintln (tcpip_String err))
                   (emit EvEventRegister t)))
      as (t' & -> & _ & Htrace); [simpl; by rewrite Hctx|].
    eexists. split; [done|]. simpl. rewrite Htrace. simpl.
    by rewrite <- !app_assoc.
Qed.

(** What [readFromLocalWriteToRemote] does when the write to the remote
    connection fails: a broken pipe or an end of stream calls [Close(nil)]
    and logs nothing; any other error is logged and given to [Close]. *)
Theorem remote_write_error_close t r reads w writes err :
  ctx t = Some false → lerr r = None → lv r ≠ [] →
  LocalEndpointStatus t ≠ StatusClosed → rwerr w = Some err →
  ∃ t', readFromLocalWriteToRemote (r :: reads) (w :: writes) t = Returned t' ∧
    trace t' = trace t ++ [EvEventRegister; EvRemoteWrite (lv r)] ++
      (if IsBrokenPipe err || IsEOF err
       then EvCallClose None :: (if closeOne t then [] else teardown None)
       else [EvLogPrintln err; EvCallClose (Some err)] ++
            (if closeOne t then [] else teardown (Some err)))
      ++ [EvEventUnregister].
Proof.
  intros Hctx Hok Hv Hstatus Herr. unfold readFromLocalWriteToRemote. simpl.
  rewrite Hctx, Hok. unfold LocalEndpointStatus in *. simpl.
  rewrite (bool_decide_eq_false_2 _ Hstatus). simpl.
  destruct (lv r) as [|b v] eqn:Hlv; [done|]. simpl. rewrite Herr.
  destruct (IsBrokenPipe err || IsEOF err).
  - destruct (Close_trace None
                (emit (EvRemoteWrite (b :: v)) (emit EvEventRegister t)))
      as (t' & -> & _ & Htrace); [simpl; by rewrite Hctx|].
    eexists. split; [done|]. simpl. rewrite Htrace. simpl.
    by rewrite <- !app_assoc.
  - destruct (Close_trace (Some err)
                (emit (EvLogPrintln err)
                   (emit (EvRemoteWrite (b :: v)) (emit EvEventRegister t))))
      as (t' & -> & _ & Htrace); [simpl; by rewrite Hctx|].
    eexists. split; [done|]. simpl. rewrite Htrace. simpl.
    by rewrite <- !app_assoc.
Qed.

(** The write loop towards the remote connection flushes the payload: when
    every write succeeds and takes at least one byte, the loop ends after
    at most as many writes as the payload has bytes, the writes together
    have taken the whole payload, each write was offered exactly what the
    writes before it had left, and [Close] is not called. *)
Theorem writeAllToRemote_flushes writes v t :
  Forall (λ w, rwerr w = None ∧ (1 ≤ rn w)%nat) writes →
  (length v ≤ length writes)%nat →
  ∃ used rest,
    writes = used ++ rest ∧
    (length used ≤ length v)%nat ∧
    (length v ≤ sum_list (rn <$> used))%nat ∧
    writeAllToRemote writes v t =
      Next rest (emitAll (EvRemoteWrite <$> offered v (rn <$> used)) t).
Proof.
  revert v t. induction writes as [|w writes IH]; intros v t Hall Hlen.
  - destruct v; [|simpl in Hlen; lia]. exists [], []. simpl.
    repeat split; try lia. unfold emitAll. rewrite app_nil_r. by destruct t.
  - apply Forall_cons in Hall as [[Hok Hpos] Hall].
    destruct v as [|b v].
    { exists [], (w :: writes). simpl. repeat split; try lia.
      unfold emitAll. rewrite app_nil_r. by destruct t. }
    simpl. rewrite Hok.
    destruct (Nat.ltb_spec (rn w) (S (length v))) as [Hshort|Hfull].
    + destruct (IH (drop (rn w) (b :: v)) (emit (EvRemoteWrite (b :: v)) t))
        as (used & rest & -> & Hused & Hsum & ->); [done| |].
      { rewrite length_drop. change (length (b :: v)) with (S (length v)).
        simpl in Hlen. lia. }
      rewrite length_drop in Hused, Hsum.
      change (length (b :: v)) with (S (length v)) in Hused, Hsum.
      exists (w :: used), rest.
      split; [done|]. split; [simpl; lia|].
      split; [rewrite fmap_cons; simpl; lia|].
      unfold emitAll, emit. simpl. by rewrite <- app_assoc.
    + exists [w], writes. split; [done|]. split; [simpl; lia|].
      split; [simpl; lia|done].
Qed.

(** The write loop towards the local endpoint does not wait on a
    would-block: [k] would-block results that take no byte cost [k] writes
    of the same chunk, one after the other, and then the loop goes on as
    before; while the endpoint keeps answering would-block the loop does
    not end. *)
Theorem writeAllToLocal_would_block_spin k writes chunk t :
  chunk ≠ [] →
  writeAllToLocal (replicate k (mkLocalWrite 0 (Some ErrWouldBlock)) ++ writes)
                  chunk t =
  writeAllToLocal writes chunk (emitAll (replicate k (EvLocalWrite chunk)) t) ∧
  writeAllToLocal (replicate k (mkLocalWrite 0 (Some ErrWouldBlock))) chunk t =
  Stop (Starved (emitAll (replicate k (EvLocalWrite chunk)) t)).
Proof.
  intros Hchunk.
  assert (∀ writes t,
    writeAllToLocal
      (replicate k (mkLocalWrite 0 (Some ErrWouldBlock)) ++ writes) chunk t =
    writeAllToLocal writes chunk
      (emitAll (replicate k (EvLocalWrite chunk)) t)) as Hspin.
  { clear writes t. induction k as [|k IH]; intros writes t.
    - simpl. unfold emitAll. rewrite app_nil_r. by destruct t.
    - destruct chunk as [|b chunk]; [done|]. simpl. rewrite IH.
      unfold emitAll, emit. simpl. by rewrite <- app_assoc. }
  split; [apply Hspin|].
  rewrite <- (app_nil_r (replicate k _)), Hspin.
  by destruct chunk.
Qed.

End MorePumps.

(** ** NewTCP2Socks *)

Section NewTunnel.
Context `{Externals} {P : Type} `{!DNSIPPool P}.
Import DNSTheory.

(** The connection to an address that [Set] has handed out is made to the
    hijacked domain: a record tagged "block" is refused before any dial;
    otherwise the dial goes to "domain:port" through the record's proxy,
    and its outcome decides the result. *)
Theorem NewTCP2Socks_after_Set Dial c D tag now now' port rec c1 log1 :
  reachable c →
  Set_ D tag now c = (Some rec, c1, log1) →
  (Proxy rec = "block" →
   (NewTCP2Socks Dial (IP rec) port now' (Some c1)).1.1
     = NewError (D +:+ " is blocked") ∧
   (NewTCP2Socks Dial (IP rec) port now' (Some c1)).2 = []) ∧
  (Proxy rec ≠ "block" →
   head (NewTCP2Socks Dial (IP rec) port now' (Some c1)).2
     = Some (EvDial (Proxy rec) (hostPort D port)) ∧
   (Dial (Proxy rec) (hostPort D port) = DialTCPConn →
    (NewTCP2Socks Dial (IP rec) port now' (Some c1)).1.1
      = NewTunnel (newTunnel (hostPort D port))) ∧
   (∀ err, Dial (Proxy rec) (hostPort D port) = DialFailed err →
           (NewTCP2Socks Dial (IP rec) port now' (Some c1)).1.1
             = NewError err)).
Proof.
  intros Hreach HSet.
  destruct (Set_Some _ _ _ _ _ _ _ HSet) as (Hrec & _ & _).
  assert (Inv c1) as HI1.
  { replace c1 with (Set_ D tag now c).1.2 by by rewrite HSet.
    by apply Inv_Set, reachable_Inv. }
  pose proof (inv_reverse c1 HI1 _ _ Hrec) as Hrev.
  pose proof (inv_hostname c1 HI1 _ _ Hrec) as Hhost.
  unfold NewTCP2Socks, GetByIP, get. rewrite Hrev, Hrec. simpl.
  rewrite Hhost. split.
  - intros ->. by simpl.
  - intros Hne. apply String.eqb_neq in Hne. rewrite Hne.
    destruct (Dial (Proxy rec) (hostPort D port)) as [err| |]; simpl.
    + split; [done|]. split; [done|]. by intros ? [= <-].
    + by repeat split.
    + by repeat split.
Qed.

(** Without a table, or for an address the reverse index does not know,
    the dial goes to "address:port" with the empty proxy tag and the table
    is left as it was; a failed dial is logged and returned, a connection
    that is not a TCP connection panics, a TCP connection gives the
    tunnel. *)
Theorem NewTCP2Socks_not_hijacked Dial ip port now (FakeDNS : option (DNSTable P)) :
  (∀ c, FakeDNS = Some c → ip2Domain c !! IP_String ip = None) →
  let addr := hostPort (IP_String ip) port in
  NewTCP2Socks Dial ip port now FakeDNS =
    match Dial "" addr with
    | DialFailed err =>
        (NewError err, FakeDNS, [EvDial "" addr; EvLogDialFailed addr "" err])
    | DialOtherConn => (NewPanic, FakeDNS, [EvDial "" addr])
    | DialTCPConn =>
        (NewTunnel (newTunnel addr), FakeDNS,
         [EvDial "" addr; EvSetKeepAlive; EvSetDeadline])
    end.
Proof.
  intros Hmiss. unfold NewTCP2Socks, GetByIP.
  destruct FakeDNS as [c|]; [rewrite (Hmiss c eq_refl)|]; simpl;
    by destruct (Dial "" (hostPort (IP_String ip) port)).
Qed.

End NewTunnel.

Lemma remote_read_error_close_witness :
  ∃ t', readFromRemoteWriteToLocal (H := sampleUtil)
          [mkRemoteRead [] (Some "i/o timeout")] []
          (setCtx (Some false) (newTunnel "example.org:443")) = Returned t' ∧
        trace t' = [EvSetReadDeadline (Some 60); EvCallClose None;
                    EvCtxCancel; EvLocalEndpointClose; EvRemoteConnClose].
Proof.
  destruct (remote_read_error_close (H := sampleUtil)
              (setCtx (Some false) (newTunnel "example.org:443"))
              (mkRemoteRead [] (Some "i/o timeout")) [] [] "i/o timeout"
              eq_refl eq_refl) as (t' & Hrun & Hclean & _).
  exists t'. split; [exact Hrun|]. exact (Hclean eq_refl).
Defined.

Lemma remote_read_zero_bytes_witness :
  readFromRemoteWriteToLocal (H := sampleUtil) [mkRemoteRead [] None] []
    (setCtx (Some false) (newTunnel "example.org:443")) =
  Returned (mkTunnel StatusUnset StatusUnset "example.org:443" (Some false)
              false [EvSetReadDeadline (Some 60); EvSetReadDeadline None]).
Proof.
  exact (proj1 (remote_read_zero_bytes (H := sampleUtil)
                  (setCtx (Some false) (newTunnel "example.org:443"))
                  (mkRemoteRead [] None) [] [] eq_refl eq_refl eq_refl)).
Defined.

Lemma Close_before_Run_witness :
  ∃ t', Close (Some "dial aborted") (newTunnel "example.org:443") = Panicked t' ∧
        CloseAll [None; None] t' =
          Returned (emitAll [EvCallClose None; EvCallClose None] t') ∧
        occurrences EvLocalEndpointClose
          (trace (emitAll [EvCallClose None; EvCallClose None] t')) = 0%nat.
Proof.
  destruct (Close_before_Run (Some "dial aborted") [None; None]
              (newTunnel "example.org:443") eq_refl eq_refl)
    as (t' & Hpanic & _ & _ & _ & Htrace & Hlater).
  exists t'. split; [exact Hpanic|]. split; [exact Hlater|].
  simpl. rewrite Htrace. reflexivity.
Defined.

Lemma pumps_stop_after_Close_witness :
  ∃ t', Close None (setCtx (Some false) (newTunnel "example.org:443"))
          = Returned t' ∧
        readFromRemoteWriteToLocal (H := sampleUtil)
          [mkRemoteRead [x01] None] [mkLocalWrite 1 None] t' = Returned t'.
Proof.
  destruct (pumps_stop_after_Close (H := sampleUtil) None
              (setCtx (Some false) (newTunnel "example.org:443")))
    as (t' & Hclose & Hremote & _).
  - discriminate.
  - reflexivity.
  - exists t'. split; [exact Hclose|apply Hremote].
Defined.

Lemma local_read_error_close_witness :
  ∃ t', readFromLocalWriteToRemote (H := sampleUtil)
          [mkLocalRead [] (Some (ErrOther "connection aborted")) false] []
          (setCtx (Some false) (newTunnel "example.org:443")) = Returned t' ∧
        trace t' =
          [EvEventRegister; EvLogPrintln "connection aborted";
           EvCallClose (Some "read from local failed, connection aborted");
           EvLogClosed "read from local failed, connection aborted";
           EvCtxCancel; EvLocalEndpointClose; EvRemoteConnClose;
           EvEventUnregister].
Proof.
  destruct (local_read_error_close (H := sampleUtil)
              (setCtx (Some false) (newTunnel "example.org:443"))
              (mkLocalRead [] (Some (ErrOther "connection aborted")) false)
              [] [] (ErrOther "connection aborted") eq_refl eq_refl)
    as (t' & Hrun & Htrace).
  - discriminate.
  - exists t'. split; [exact Hrun|exact Htrace].
Defined.

Lemma remote_write_error_close_witness :
  ∃ t', readFromLocalWriteToRemote (H := sampleUtil)
          [mkLocalRead [x01; x02] None false]
          [mkRemoteWrite 0 (Some "broken pipe")]
          (setCtx (Some false) (newTunnel "example.org:443")) = Returned t' ∧
        trace t' =
          [EvEventRegister; EvRemoteWrite [x01; x02]; EvCallClose None;
           EvCtxCancel; EvLocalEndpointClose; EvRemoteConnClose;
           EvEventUnregister].
Proof.
  destruct (remote_write_error_close (H := sampleUtil)
              (setCtx (Some false) (newTunnel "example.org:443"))
              (mkLocalRead [x01; x02] None false) []
              (mkRemoteWrite 0 (Some "broken pipe")) [] "broken pipe"
              eq_refl eq_refl)
    as (t' & Hrun & Htrace); [discriminate..|reflexivity|].
  exists t'. split; [exact Hrun|exact Htrace].
Defined.

Lemma writeAllToRemote_flushes_witness :
  ∃ used rest,
    [mkRemoteWrite 2 None; mkRemoteWrite 1 None; mkRemoteWrite 4 None]
      = used ++ rest ∧
    writeAllToRemote (H := sampleUtil)
      [mkRemoteWrite 2 None; mkRemoteWrite 1 None; mkRemoteWrite 4 None]
      [x01; x02; x03] (newTunnel "example.org:443") =
    Next rest (emitAll (EvRemoteWrite <$> offered [x01; x02; x03] (rn <$> used))
                       (newTunnel "example.org:443")).
Proof.
  destruct (writeAllToRemote_flushes (H := sampleUtil)
              [mkRemoteWrite 2 None; mkRemoteWrite 1 None; mkRemoteWrite 4 None]
              [x01; x02; x03] (newTunnel "example.org:443"))
    as (used & rest & Hsplit & _ & _ & Hrun).
  - repeat constructor.
  - simpl. lia.
  - exists used, rest. split; [exact Hsplit|exact Hrun].
Defined.

Lemma writeAllToLocal_would_block_spin_witness :
  writeAllToLocal (H := sampleUtil)
    (replicate 3 (mkLocalWrite 0 (Some ErrWouldBlock))) [x01]
    (newTunnel "example.org:443") =
  Stop (Starved (emitAll (replicate 3 (EvLocalWrite [x01]))
                         (newTunnel "example.org:443"))).
Proof.
  apply (proj2 (writeAllToLocal_would_block_spin (H := sampleUtil) 3 []
                  [x01] (newTunnel "example.org:443") ltac:(discriminate))).
Defined.

Lemma Run_teardown_once_witness :
  ∃ cfg, exec (H := sampleUtil) quietSchedule quietRun = Some cfg ∧
         occurrences EvLocalEndpointClose (trace (tunnel cfg)) = 1%nat ∧
         occurrences EvRemoteConnClose (trace (tunnel cfg)) = 1%nat.
Proof.
  destruct (exec (H := sampleUtil) quietSchedule quietRun) as [cfg|] eqn:Hexec;
    [|vm_compute in Hexec; discriminate Hexec].
  exists cfg. split; [reflexivity|].
  destruct (Run_teardown_once (H := sampleUtil) _ _ _ _ _ _ _ Hexec)
    as (_ & _ & Hdone).
  destruct Hdone as (Hl & Hr & _); [|by split].
  vm_compute in Hexec. injection Hexec as <-. reflexivity.
Defined.

Lemma closed_is_final_once_set_witness :
  ∃ cfg cfg',
    exec (H := sampleUtil)
      [ActRun; ActRun; ActRun; ActRun; ActRun; ActRemotePump] resetRun
      = Some cfg ∧
    exec (H := sampleUtil) [ActClose (Some "late")] cfg = Some cfg' ∧
    RemoteStatus (tunnel cfg') = StatusClosed.
Proof.
  destruct (exec (H := sampleUtil)
              [ActRun; ActRun; ActRun; ActRun; ActRun; ActRemotePump] resetRun)
    as [cfg|] eqn:Hexec1; [|vm_compute in Hexec1; discriminate Hexec1].
  destruct (exec (H := sampleUtil) [ActClose (Some "late")] cfg)
    as [cfg'|] eqn:Hexec2.
  - exists cfg, cfg'. split; [reflexivity|]. split; [exact Hexec2|].
    apply (closed_is_final_once_set (H := sampleUtil) "example.org:443"
             [mkRemoteRead [] (Some "connection reset by peer")] [] [] []
             [ActRun; ActRun; ActRun; ActRun; ActRun; ActRemotePump]
             [ActClose (Some "late")] cfg cfg' Hexec1); [|exact Hexec2|];
      vm_compute in Hexec1; injection Hexec1 as <-; reflexivity.
  - exfalso. vm_compute in Hexec1. injection Hexec1 as <-.
    vm_compute in Hexec2. discriminate Hexec2.
Defined.

Lemma NewTCP2Socks_after_Set_witness :
  ∃ rec c1 log1,
    Set_ (H := sampleExternals) "host1.example" "other" 9 (sampleTable 100 3)
      = (Some rec, c1, log1) ∧
    (NewTCP2Socks (H := sampleExternals) (λ _ _, DialTCPConn)
       (IP rec) 443 12 (Some c1)).1.1
      = NewTunnel (newTunnel (hostPort "host1.example" 443)).
Proof.
  destruct (Set_ (H := sampleExternals) "host1.example" "other" 9
              (sampleTable 100 3))
    as [[[rec|] c1] log1] eqn:HSet; [|vm_compute in HSet; discriminate HSet].
  exists rec, c1, log1. split; [reflexivity|].
  destruct (NewTCP2Socks_after_Set (H := sampleExternals) (λ _ _, DialTCPConn)
              (sampleTable 100 3) "host1.example" "other" 9 12 443 rec c1 log1
              (DNSTheory.sampleTable_reachable 100 3) HSet)
    as (_ & Hgo).
  apply Hgo; [|reflexivity].
  vm_compute in HSet. injection HSet as <- _ _. discriminate.
Defined.

Lemma NewTCP2Socks_not_hijacked_witness :
  NewTCP2Socks (H := sampleExternals) (λ _ _, DialTCPConn)
    (Some [x08; x08; x08; x08]) 53 0 (Some (sampleTable 100 3)) =
  (NewTunnel (newTunnel (hostPort "8.8.8.8" 53)), Some (sampleTable 100 3),
   [EvDial "" (hostPort "8.8.8.8" 53); EvSetKeepAlive; EvSetDeadline]).
Proof.
  apply (NewTCP2Socks_not_hijacked (H := sampleExternals) (λ _ _, DialTCPConn)
           (Some [x08; x08; x08; x08]) 53 0 (Some (sampleTable 100 3))).
  intros c [= <-]. vm_compute. reflexivity.
Defined.

End TunnelTheory.
